(** * PokerGameEngine: a max-heap of players with a position map

    A shallow embedding of [src/pokersim.py] (classes [Player] and
    [PokerGameEngine]) and the properties of its public interface. *)

From Stdlib Require Import ZArith Lia String Ascii DecimalString DecimalZ.
From stdpp Require Import base option list sorting gmap.

Local Open Scope Z_scope.
Local Open Scope nat_scope.

(** ** Data model *)

(** A Python reference to a [Player] object.  Two slots of the heap array may
    hold the same reference: the caller is free to pass one object twice. *)
Definition ref := nat.

(** The attributes of a [Player] the engine reads or writes ([cards] is never
    touched by [PokerGameEngine]).  Ids and scores are Python integers, as in
    the driver. *)
Record Player := mkPlayer {
  player_id : Z;
  name : string;
  hand_score : Z
}.

(** A state of the program: the [Player] objects the references denote
    (Python's object memory, total because a reference is never dangling) and
    the two attributes of [PokerGameEngine].  Slot indices are natural
    numbers: every index the code stores or computes and then uses is
    non-negative. *)
Record State := mkState {
  objects : ref → Player;
  heap : list ref;
  position_map : gmap Z nat
}.

(** [PokerGameEngine()] over a given object memory. *)
Definition init (objs : ref → Player) : State :=
  {| objects := objs; heap := []; position_map := ∅ |}.

Definition set_heap (h : list ref) (s : State) : State :=
  {| objects := objects s; heap := h; position_map := position_map s |}.

Definition set_position_map (m : gmap Z nat) (s : State) : State :=
  {| objects := objects s; heap := heap s; position_map := m |}.

(** [obj.hand_score = v]: the object changes, hence every slot holding it. *)
Definition set_hand_score (r : ref) (v : Z) (s : State) : State :=
  {| objects := fun r' =>
       if Nat.eqb r' r
       then {| player_id := player_id (objects s r');
               name := name (objects s r');
               hand_score := v |}
       else objects s r';
     heap := heap s;
     position_map := position_map s |}.

Definition id_of (s : State) (r : ref) : Z := player_id (objects s r).
Definition score_of (s : State) (r : ref) : Z := hand_score (objects s r).

(** ** Outcomes *)

(** The exceptions the list and dict accesses of the code can raise. *)
Inductive exn := IndexError | KeyError.

(** The outcome of running a piece of the code: a value, an exception, or the
    model's recursion budget exhausted. *)
Inductive result (A : Type) :=
  | Ok (a : A)
  | Raise (e : exn)
  | OutOfFuel.
Arguments Ok {A} a.
Arguments Raise {A} e.
Arguments OutOfFuel {A}.

#[global] Instance result_ret : MRet result := @Ok.
#[global] Instance result_bind : MBind result := fun A B f m =>
  match m with
  | Ok a => f a
  | Raise e => Raise e
  | OutOfFuel => OutOfFuel
  end.

(** What a method hands back to its caller: [None] or a player. *)
Inductive retval := RNone | RPlayer (r : ref).

(** ** Private helpers of [PokerGameEngine] *)

(** [_parent] is called under [i > 0] only, where [(i - 1) // 2] is the
    division of natural numbers. *)
Definition _parent (i : nat) : nat := (i - 1) / 2.
Definition _left (i : nat) : nat := 2 * i + 1.
Definition _right (i : nat) : nat := 2 * i + 2.

(** [self.heap[i]] as an expression. *)
Definition heap_at (s : State) (i : nat) : result ref :=
  match heap s !! i with
  | Some r => Ok r
  | None => Raise IndexError
  end.

(** [self.heap[i].hand_score]. *)
Definition score_at (s : State) (i : nat) : result Z :=
  r ← heap_at s i; Ok (score_of s r).

Definition _swap (i j : nat) (s : State) : result State :=
  hj ← heap_at s j;
  hi ← heap_at s i;
  let s1 := set_heap (<[j := hi]> (<[i := hj]> (heap s))) s in
  p1 ← heap_at s1 i;
  p2 ← heap_at s1 j;
  Ok (set_position_map
        (<[id_of s1 p2 := j]> (<[id_of s1 p1 := i]> (position_map s1))) s1).

(** The [while] loop of [_sift_up]; [fuel] bounds the number of tests of the
    loop condition. *)
Fixpoint sift_up_loop (fuel : nat) (i : nat) (s : State) : result State :=
  match fuel with
  | O => OutOfFuel
  | S fuel' =>
      if 0 <? i then
        a ← score_at s i;
        b ← score_at s (_parent i);
        if (b <? a)%Z then
          s' ← _swap i (_parent i) s;
          sift_up_loop fuel' (_parent i) s'
        else Ok s
      else Ok s
  end.

Definition _sift_up (i : nat) (s : State) : result State :=
  sift_up_loop (S i) i s.

(** The two [if]s of [_sift_down] that choose [max_idx]. *)
Definition pick_child (c : nat) (max_idx : nat) (s : State) : result nat :=
  if c <? length (heap s) then
    a ← score_at s c;
    b ← score_at s max_idx;
    Ok (if (b <? a)%Z then c else max_idx)
  else Ok max_idx.

(** [_sift_down]; [fuel] bounds the depth of the recursion. *)
Fixpoint sift_down_rec (fuel : nat) (i : nat) (s : State) : result State :=
  match fuel with
  | O => OutOfFuel
  | S fuel' =>
      m1 ← pick_child (_left i) i s;
      max_idx ← pick_child (_right i) m1 s;
      if negb (i =? max_idx) then
        s' ← _swap i max_idx s;
        sift_down_rec fuel' max_idx s'
      else Ok s
  end.

Definition _sift_down (i : nat) (s : State) : result State :=
  sift_down_rec (S (length (heap s))) i s.

(** ** Public interface *)

Definition add_player (player : ref) (s : State) : result (retval * State) :=
  let s1 := set_heap (heap s ++ [player]) s in
  let index := length (heap s1) - 1 in
  let s2 := set_position_map (<[id_of s1 player := index]> (position_map s1)) s1 in
  s3 ← _sift_up index s2;
  Ok (RNone, s3).

Definition get_winner (s : State) : result (retval * State) :=
  Ok (match heap s with
      | r :: _ => RPlayer r
      | [] => RNone
      end, s).

(** [self.heap.pop()], its value dropped. *)
Definition heap_pop (s : State) : result State :=
  match heap s with
  | [] => Raise IndexError
  | _ => Ok (set_heap (removelast (heap s)) s)
  end.

(** [del self.position_map[player_id]]. *)
Definition position_map_del (pid : Z) (s : State) : result State :=
  match position_map s !! pid with
  | None => Raise KeyError
  | Some _ => Ok (set_position_map (delete pid (position_map s)) s)
  end.

(** Lines 87-91 of [fold_player]: swap the target with the last slot, pop it,
    drop its key. *)
Definition fold_detach (pid : Z) (index : nat) (s : State) : result State :=
  let last_idx := length (heap s) - 1 in
  s1 ← _swap index last_idx s;
  s2 ← heap_pop s1;
  position_map_del pid s2.

(** The [print] of [fold_player] and of [update_hand_strength] is modelled
    by what it reads, [self.heap[index]]; the text it writes is not part of
    the state. *)
Definition fold_player (pid : Z) (s : State) : result (retval * State) :=
  match position_map s !! pid with
  | None => Ok (RNone, s)
  | Some index =>
      _ ← heap_at s index;
      s3 ← fold_detach pid index s;
      if index <? length (heap s3) then
        s4 ← _sift_up index s3;
        s5 ← _sift_down index s4;
        Ok (RNone, s5)
      else Ok (RNone, s3)
  end.

Definition update_hand_strength (pid : Z) (new_score : Z) (s : State)
  : result (retval * State) :=
  match position_map s !! pid with
  | None => Ok (RNone, s)
  | Some index =>
      old_score ← score_at s index;
      r ← heap_at s index;
      let s1 := set_hand_score r new_score s in
      _ ← heap_at s1 index;
      s2 ← (if (old_score <? new_score)%Z
            then _sift_up index s1
            else _sift_down index s1);
      Ok (RNone, s2)
  end.

(** ** Sequences of calls *)

Inductive op :=
  | AddPlayer (player : ref)
  | GetWinner
  | FoldPlayer (pid : Z)
  | UpdateHandStrength (pid : Z) (new_score : Z).

Definition run_op (o : op) (s : State) : result (retval * State) :=
  match o with
  | AddPlayer r => add_player r s
  | GetWinner => get_winner s
  | FoldPlayer pid => fold_player pid s
  | UpdateHandStrength pid v => update_hand_strength pid v s
  end.

Fixpoint run (ops : list op) (s : State) : result State :=
  match ops with
  | [] => Ok s
  | o :: ops' => p ← run_op o s; run ops' p.2
  end.

(** The players of the driver [simulate_game], with the scores of the spec's
    concrete scenario. *)
Definition table (r : ref) : Player :=
  match r with
  | 0 => mkPlayer 1 "Alice" 100
  | 1 => mkPlayer 2 "Bob" 500
  | 2 => mkPlayer 3 "Charlie" 300
  | _ => mkPlayer 4 "Dave" 200
  end.

(** ** Invariants of the structure *)

(** The priority held by slot [k] (0 outside the array). *)
Definition sc (s : State) (k : nat) : Z :=
  default 0%Z (score_of s <$> heap s !! k).

(** The max-heap invariant. *)
Definition heap_ordered (s : State) : Prop :=
  ∀ i, 0 < i < length (heap s) → (sc s i ≤ sc s (_parent i))%Z.

(** Every entry of the position map points at a slot holding that id. *)
Definition map_valid (s : State) : Prop :=
  ∀ pid k, position_map s !! pid = Some k →
    ∃ r, heap s !! k = Some r ∧ id_of s r = pid.

(** [position_map[heap[i].player_id] == i] for every valid [i]. *)
Definition indexed (s : State) : Prop :=
  ∀ i r, heap s !! i = Some r → position_map s !! id_of s r = Some i.

(** Heap order everywhere but on the edge from [i] to its parent. *)
Definition up_inv (i : nat) (s : State) : Prop :=
  (∀ k, 0 < k < length (heap s) → k ≠ i → (sc s k ≤ sc s (_parent k))%Z) ∧
  (∀ c, 0 < i → c < length (heap s) → 0 < c → _parent c = i →
        (sc s c ≤ sc s (_parent i))%Z).

(** Heap order everywhere but on the edges from the children of [i]. *)
Definition down_inv (i : nat) (s : State) : Prop :=
  (∀ k, 0 < k < length (heap s) → _parent k ≠ i →
        (sc s k ≤ sc s (_parent k))%Z) ∧
  (∀ c, 0 < i → c < length (heap s) → 0 < c → _parent c = i →
        (sc s c ≤ sc s (_parent i))%Z).

(** Heap order on every edge that does not touch slot [i]. *)
Definition hole_inv (i : nat) (s : State) : Prop :=
  (∀ k, 0 < k < length (heap s) → k ≠ i → _parent k ≠ i →
        (sc s k ≤ sc s (_parent k))%Z) ∧
  (∀ c, 0 < i → c < length (heap s) → 0 < c → _parent c = i →
        (sc s c ≤ sc s (_parent i))%Z).

(** The state [_swap i j] leaves when both slots exist. *)
Definition swapped (i j : nat) (a b : ref) (s : State) : State :=
  {| objects := objects s;
     heap := <[j := a]> (<[i := b]> (heap s));
     position_map := <[id_of s a := j]> (<[id_of s b := i]> (position_map s)) |}.

(** A property that every swap of two distinct slots keeps. *)
Definition swap_closed (P : State → Prop) : Prop :=
  ∀ i j a b s, i ≠ j → heap s !! i = Some a → heap s !! j = Some b →
    P s → P (swapped i j a b s).

(** What the sifts never change: the objects and the multiset of slots. *)
Definition same_content (s0 s : State) : Prop :=
  objects s = objects s0 ∧ heap s ≡ₚ heap s0.

(** The slot [_sift_down i] settles on as [max_idx]. *)
Definition max_child (i : nat) (s : State) : nat :=
  let m1 :=
    if decide (_left i < length (heap s) ∧ (sc s i < sc s (_left i))%Z)
    then _left i else i in
  if decide (_right i < length (heap s) ∧ (sc s m1 < sc s (_right i))%Z)
  then _right i else m1.

(** The state [add_player] hands to [_sift_up]: the player in a new last
    slot, its id mapped to that slot. *)
Definition appended (player : ref) (s : State) : State :=
  {| objects := objects s;
     heap := heap s ++ [player];
     position_map := <[id_of s player := length (heap s)]> (position_map s) |}.

(** The slot [t] steps up from slot [i]: its parent, the parent of that
    one, and so on. *)
Fixpoint ancestor (t i : nat) : nat :=
  match t with
  | O => i
  | S t' => ancestor t' (_parent i)
  end.

(** The state lines 87-91 of [fold_player] leave: slot [index] takes the
    last element [b], the array loses its last slot (by then holding [r]),
    the key [pid] is gone. *)
Definition detached (pid : Z) (index : nat) (r b : ref) (s : State) : State :=
  {| objects := objects s;
     heap := removelast (<[length (heap s) - 1 := r]> (<[index := b]> (heap s)));
     position_map :=
       delete pid (<[id_of s r := length (heap s) - 1]>
                     (<[id_of s b := index]> (position_map s))) |}.

(** ** Conditions on a sequence of calls *)

(** No [add_player] of the sequence is passed an object that some slot of the
    array holds at the moment of the call. *)
Fixpoint adds_new_objects (ops : list op) (s : State) : bool :=
  match ops with
  | [] => true
  | o :: ops' =>
      match o with
      | AddPlayer r => bool_decide (r ∉ heap s)
      | _ => true
      end &&
      match run_op o s with
      | Ok p => adds_new_objects ops' p.2
      | _ => true
      end
  end.

(** No [add_player] of the sequence is passed a player whose id is a key of
    the position map at the moment of the call. *)
Fixpoint adds_new_ids (ops : list op) (s : State) : bool :=
  match ops with
  | [] => true
  | o :: ops' =>
      match o with
      | AddPlayer r => bool_decide (position_map s !! id_of s r = None)
      | _ => true
      end &&
      match run_op o s with
      | Ok p => adds_new_ids ops' p.2
      | _ => true
      end
  end.

(** Players that all carry the id 7, with scores 0, 10, 20, ... *)
Definition twins (r : ref) : Player := mkPlayer 7 "Twin" (10 * Z.of_nat r).

(** The calls of the spec's concrete scenario, on the players of [table]. *)
Definition scenario : list op :=
  [AddPlayer 0; AddPlayer 1; AddPlayer 2; AddPlayer 3;
   UpdateHandStrength 1 850; FoldPlayer 4;
   UpdateHandStrength 3 900; UpdateHandStrength 3 1200; GetWinner].

(** The heap invariant as a check that runs. *)
Definition heap_orderedb (s : State) : bool :=
  forallb (fun i => (sc s i <=? sc s (_parent i))%Z)
          (seq 1 (length (heap s) - 1)).

(** The table after the four players of the scenario are dealt in. *)
Definition dealt : State :=
  {| objects := table;
     heap := [1; 3; 2; 0];
     position_map := list_to_map [(1%Z, 3); (2%Z, 0); (3%Z, 2); (4%Z, 1)] |}.

(** ** The spec's alternative [updatePriority] *)

(** Written from the spec's words: overwrite the priority in place, then run
    sift-up and sift-down at the slot unconditionally. *)
Definition update_priority_both (pid : Z) (new_score : Z) (s : State)
  : result (retval * State) :=
  match position_map s !! pid with
  | None => Ok (RNone, s)
  | Some index =>
      r ← heap_at s index;
      let s1 := set_hand_score r new_score s in
      s2 ← _sift_up index s1;
      s3 ← _sift_down index s2;
      Ok (RNone, s3)
  end.

Definition run_op_both (o : op) (s : State) : result (retval * State) :=
  match o with
  | UpdateHandStrength pid v => update_priority_both pid v s
  | _ => run_op o s
  end.

Fixpoint run_both (ops : list op) (s : State) : result State :=
  match ops with
  | [] => Ok s
  | o :: ops' => p ← run_op_both o s; run_both ops' p.2
  end.

(** ** The round trip *)

(** The caller's loop: read the winner with [get_winner], fold its id with
    [fold_player], at most [n] times or until [get_winner] returns [None];
    the winners are collected in the order they were read. *)
Fixpoint drain (n : nat) (s : State) : result (list ref * State) :=
  match n with
  | O => Ok ([], s)
  | S n' =>
      p ← get_winner s;
      match p.1 with
      | RNone => Ok ([], p.2)
      | RPlayer r =>
          q ← fold_player (id_of p.2 r) p.2;
          rest ← drain n' q.2;
          Ok (r :: rest.1, rest.2)
      end
  end.

(** One player of id 7 at the table. *)
Definition one_twin : State :=
  {| objects := twins; heap := [0]; position_map := {[ 7%Z := 0 ]} |}.

(** Seven players, ids 0 to 6, seated in heap order:
    100 over (10 over 5, 6) and (90 over 80, 85). *)
Definition seven : State :=
  {| objects := fun r =>
       mkPlayer (Z.of_nat r) "Player"
                (nth r [100; 10; 90; 5; 6; 80; 85]%Z 0%Z);
     heap := [0; 1; 2; 3; 4; 5; 6];
     position_map :=
       list_to_map [(0%Z, 0); (1%Z, 1); (2%Z, 2); (3%Z, 3);
                    (4%Z, 4); (5%Z, 5); (6%Z, 6)] |}.

(** The table after Alice, Bob and Charlie are dealt in. *)
Definition three_in : State :=
  {| objects := table;
     heap := [1; 0; 2];
     position_map := list_to_map [(1%Z, 1); (2%Z, 0); (3%Z, 2)] |}.

(** ** [Player] and the driver [simulate_game] *)

(** [Player(player_id, name)]: the score starts at 0. *)
Definition new_player (pid : Z) (nm : string) : Player :=
  {| player_id := pid; name := nm; hand_score := 0 |}.

(** [str] of a Python integer: decimal digits, with a minus sign below 0. *)
Definition str_int (z : Z) : string := NilEmpty.string_of_int (Z.to_int z).

(** The newline character. *)
Definition nl : string := String (ascii_of_nat 10) EmptyString.

(** [Player.__repr__]: [f"{self.name} (Score: {self.hand_score})"]. *)
Definition __repr__ (p : Player) : string :=
  (name p ++ " (Score: " ++ str_int (hand_score p) ++ ")")%string.

(** What an f-string shows for the value of [get_winner()]. *)
Definition show_winner (s : State) (v : retval) : string :=
  match v with
  | RNone => "None"%string
  | RPlayer r => __repr__ (objects s r)
  end.

(** The line [fold_player] prints: none when it returns at once, or when the
    read of [self.heap[index]] raises. *)
Definition fold_player_prints (pid : Z) (s : State) : list string :=
  match position_map s !! pid with
  | None => []
  | Some index =>
      match heap s !! index with
      | Some r => ["[FOLD] " ++ name (objects s r) ++ " has folded."]%string
      | None => []
      end
  end.

(** The line [update_hand_strength] prints, likewise. *)
Definition update_hand_strength_prints (pid : Z) (new_score : Z) (s : State)
  : list string :=
  match position_map s !! pid with
  | None => []
  | Some index =>
      match heap s !! index with
      | Some r =>
          ["[UPDATE] " ++ name (objects s r) ++ "'s score changed: "
             ++ str_int (score_of s r) ++ " -> " ++ str_int new_score]%string
      | None => []
      end
  end.

(** The four [Player] objects [simulate_game] builds, as references 0 to 3. *)
Definition seats (r : ref) : Player :=
  match r with
  | 0 => new_player 1 "Alice"
  | 1 => new_player 2 "Bob"
  | 2 => new_player 3 "Charlie"
  | _ => new_player 4 "Dave"
  end.

(** The dealing loop: [p.hand_score = random.randint(100, 500)] then
    [game.add_player(p)]; [randint k] is what the [k]-th call of
    [random.randint] returns. *)
Fixpoint deal (players : list ref) (k : nat) (randint : nat → Z) (game : State)
  : result State :=
  match players with
  | [] => Ok game
  | p :: rest =>
      q ← add_player p (set_hand_score p (randint k) game);
      deal rest (S k) randint q.2
  end.

(** How a run of the driver ends: it returns, having printed its lines (one
    entry for each [print]), or an exception leaves it. *)
Inductive ending :=
  | Returns (stdout : list string)
  | EngineRaises (e : exn)
  | AttributeError
  | BudgetOut.

(** [simulate_game], up to the last [get_winner]: the lines printed so far,
    the winner, the engine. *)
Definition simulate_game_rounds (randint : nat → Z)
  : result (list string * retval * State) :=
  let out := ["--- Dealing Hole Cards (Pre-Flop) ---"%string] in
  game ← deal [0; 1; 2; 3] 0 randint (init seats);
  w ← get_winner game;
  let out := out ++ [("Current Leader: " ++ show_winner game w.1 ++ nl)%string;
                     "--- The Flop (3 Community Cards Revealed) ---"%string]
                 ++ update_hand_strength_prints 1 850 game in
  u ← update_hand_strength 1 850 game;
  let game := u.2 in
  w ← get_winner game;
  let out := out ++ [("Current Leader: " ++ show_winner game w.1 ++ nl)%string;
                     "--- Betting Round ---"%string]
                 ++ fold_player_prints 4 game in
  f ← fold_player 4 game;
  let game := f.2 in
  let out := out ++ [("Remaining Players: "
                        ++ str_int (Z.of_nat (length (heap game))) ++ nl)%string;
                     "--- The Turn (4th Card) ---"%string]
                 ++ update_hand_strength_prints 3 900 game in
  u ← update_hand_strength 3 900 game;
  let game := u.2 in
  w ← get_winner game;
  let out := out ++ [("Current Leader: " ++ show_winner game w.1 ++ nl)%string;
                     "--- The River (5th Card) ---"%string]
                 ++ update_hand_strength_prints 3 1200 game in
  u ← update_hand_strength 3 1200 game;
  let game := u.2 in
  let out := out ++ ["--- SHOWDOWN ---"%string] in
  winner ← get_winner game;
  Ok (out, winner.1, game).

Definition simulate_game (randint : nat → Z) : ending :=
  match simulate_game_rounds randint with
  | Ok (out, RPlayer winner, game) =>
      Returns (out ++ [("WINNER: " ++ name (objects game winner) ++ " with score "
                          ++ str_int (score_of game winner))%string])
  | Ok (_, RNone, _) => AttributeError
  | Raise e => EngineRaises e
  | OutOfFuel => BudgetOut
  end.

(** What the proof about the driver carries from round to round: the engine's
    invariants, the players in the array, the ids and names as constructed,
    and the score of each player in the array. *)
Definition snapshot (ls : list ref) (f : ref → Z) (s : State) : Prop :=
  map_valid s ∧ indexed s ∧ heap_ordered s ∧ heap s ≡ₚ ls ∧
  (∀ r, id_of s r = player_id (seats r) ∧ name (objects s r) = name (seats r)) ∧
  (∀ r, r ∈ ls → score_of s r = f r).

(** The lines a run of the driver prints when [w] leads after the deal. *)
Definition scripted_stdout (randint : nat → Z) (w : ref) : list string :=
  ["--- Dealing Hole Cards (Pre-Flop) ---";
   "Current Leader: "
     ++ (name (seats w) ++ " (Score: " ++ str_int (randint w) ++ ")") ++ nl;
   "--- The Flop (3 Community Cards Revealed) ---";
   "[UPDATE] Alice's score changed: " ++ str_int (randint 0) ++ " -> 850";
   "Current Leader: Alice (Score: 850)" ++ nl;
   "--- Betting Round ---";
   "[FOLD] Dave has folded.";
   "Remaining Players: 3" ++ nl;
   "--- The Turn (4th Card) ---";
   "[UPDATE] Charlie's score changed: " ++ str_int (randint 2) ++ " -> 900";
   "Current Leader: Charlie (Score: 900)" ++ nl;
   "--- The River (5th Card) ---";
   "[UPDATE] Charlie's score changed: 900 -> 1200";
   "--- SHOWDOWN ---";
   "WINNER: Charlie with score 1200"]%string.

(** A deal: the scores of the spec's scenario. *)
Definition scenario_deal (k : nat) : Z :=
  match k with
  | 0 => 100%Z
  | 1 => 500%Z
  | 2 => 300%Z
  | _ => 200%Z
  end.

(** * Properties *)

(** ** Index arithmetic *)

Lemma parent_lt i : 0 < i → _parent i < i.
Proof. unfold _parent. intros. apply Nat.Div0.div_lt_upper_bound. lia. Qed.

Lemma parent_left i : _parent (_left i) = i.
Proof. unfold _parent, _left. replace (2 * i + 1 - 1) with (i * 2) by lia. apply Nat.div_mul. lia. Qed.

Lemma parent_right i : _parent (_right i) = i.
Proof.
  unfold _parent, _right. replace (2 * i + 2 - 1) with (1 + i * 2) by lia.
  rewrite Nat.div_add by lia. reflexivity.
Qed.

Lemma child_cases k : 0 < k → k = _left (_parent k) ∨ k = _right (_parent k).
Proof.
  intros Hk. unfold _left, _right, _parent.
  pose proof (Nat.div_mod_eq (k - 1) 2) as E.
  pose proof (Nat.mod_upper_bound (k - 1) 2) as B.
  lia.
Qed.

(** ** Reading the array *)

Lemma heap_at_Ok s i r : heap_at s i = Ok r ↔ heap s !! i = Some r.
Proof. unfold heap_at. destruct (heap s !! i); split; congruence. Qed.

Lemma heap_at_lookup s i r : heap s !! i = Some r → heap_at s i = Ok r.
Proof. apply heap_at_Ok. Qed.

Lemma score_at_lookup s i r :
  heap s !! i = Some r → score_at s i = Ok (score_of s r).
Proof. intros H. unfold score_at. rewrite (heap_at_lookup _ _ _ H). reflexivity. Qed.

Lemma sc_lookup s i r : heap s !! i = Some r → sc s i = score_of s r.
Proof. intros H. unfold sc. rewrite H. reflexivity. Qed.

Lemma score_at_sc s i : i < length (heap s) → score_at s i = Ok (sc s i).
Proof.
  intros H. destruct (lookup_lt_is_Some_2 _ _ H) as [r Hr].
  rewrite (score_at_lookup _ _ _ Hr), (sc_lookup _ _ _ Hr). reflexivity.
Qed.

Lemma score_at_Ok s i v : score_at s i = Ok v → i < length (heap s) ∧ v = sc s i.
Proof.
  unfold score_at, heap_at, sc. destruct (heap s !! i) as [r|] eqn:E; simpl; [|discriminate].
  intros [= <-]. split; [by eapply lookup_lt_Some|reflexivity].
Qed.

(** The heap invariant, read off the array. *)
Lemma heap_ordered_lookup s :
  heap_ordered s ↔
  ∀ i a b, 0 < i → heap s !! i = Some a → heap s !! _parent i = Some b →
    (score_of s a ≤ score_of s b)%Z.
Proof.
  split.
  - intros Ho i a b H0 Ha Hb.
    pose proof (Ho i (conj H0 (lookup_lt_Some _ _ _ Ha))) as Hle.
    by rewrite (sc_lookup _ _ _ Ha), (sc_lookup _ _ _ Hb) in Hle.
  - intros H i [H0 Hi]. pose proof (parent_lt i H0) as Hp.
    destruct (lookup_lt_is_Some_2 (heap s) i Hi) as [a Ha].
    destruct (lookup_lt_is_Some_2 (heap s) (_parent i)) as [b Hb]; [lia|].
    rewrite (sc_lookup _ _ _ Ha), (sc_lookup _ _ _ Hb). eauto.
Qed.

(** ** [_swap] *)

Lemma swap_lookup s i j a b :
  heap s !! i = Some a → heap s !! j = Some b →
  _swap i j s = Ok (swapped i j a b s).
Proof.
  intros Hi Hj. unfold _swap.
  rewrite (heap_at_lookup _ _ _ Hj), (heap_at_lookup _ _ _ Hi). simpl.
  pose proof (lookup_lt_Some _ _ _ Hi) as Li.
  pose proof (lookup_lt_Some _ _ _ Hj) as Lj.
  assert (E2 : <[j:=a]> (<[i:=b]> (heap s)) !! j = Some a)
    by (apply list_lookup_insert_eq; rewrite length_insert; lia).
  unfold heap_at. simpl. rewrite E2.
  destruct (decide (i = j)) as [->|Hne].
  - rewrite E2. simpl. assert (a = b) by congruence. subst b. reflexivity.
  - rewrite list_lookup_insert_ne by done.
    rewrite list_lookup_insert_eq by lia. reflexivity.
Qed.

Lemma swap_Ok s i j s' :
  _swap i j s = Ok s' →
  ∃ a b, heap s !! i = Some a ∧ heap s !! j = Some b ∧ s' = swapped i j a b s.
Proof.
  intros H.
  destruct (heap s !! i) as [a|] eqn:Hi; destruct (heap s !! j) as [b|] eqn:Hj.
  - rewrite (swap_lookup _ _ _ _ _ Hi Hj) in H. injection H as <-. eauto.
  - unfold _swap, heap_at in H. rewrite Hj in H. discriminate.
  - unfold _swap, heap_at in H. rewrite Hj, Hi in H. discriminate.
  - unfold _swap, heap_at in H. rewrite Hj in H. discriminate.
Qed.

Lemma swap_in_range s i j :
  i < length (heap s) → j < length (heap s) → ∃ s', _swap i j s = Ok s'.
Proof.
  intros Hi Hj.
  destruct (lookup_lt_is_Some_2 _ _ Hi) as [a Ha].
  destruct (lookup_lt_is_Some_2 _ _ Hj) as [b Hb].
  eexists. by apply swap_lookup.
Qed.

Lemma swap_not_out_of_fuel s i j : _swap i j s ≠ OutOfFuel.
Proof.
  destruct (heap s !! i) as [a|] eqn:Hi; destruct (heap s !! j) as [b|] eqn:Hj.
  - by rewrite (swap_lookup _ _ _ _ _ Hi Hj).
  - unfold _swap, heap_at. by rewrite Hj.
  - unfold _swap, heap_at. by rewrite Hj, Hi.
  - unfold _swap, heap_at. by rewrite Hj.
Qed.

Lemma swapped_length i j a b s : length (heap (swapped i j a b s)) = length (heap s).
Proof. simpl. by rewrite !length_insert. Qed.

(** The array after a swap of two slots that exist. *)
Section swapped_array.
Context (i j : nat) (a b : ref) (s : State).
Hypothesis Hi : heap s !! i = Some a.
Hypothesis Hj : heap s !! j = Some b.

Lemma swapped_lookup k :
  heap (swapped i j a b s) !! k =
    if decide (k = j) then Some a else if decide (k = i) then Some b else heap s !! k.
Proof.
  simpl.
  pose proof (lookup_lt_Some _ _ _ Hi). pose proof (lookup_lt_Some _ _ _ Hj).
  destruct (decide (k = j)) as [->|].
  - apply list_lookup_insert_eq. rewrite length_insert. lia.
  - rewrite list_lookup_insert_ne by congruence.
    destruct (decide (k = i)) as [->|].
    + by apply list_lookup_insert_eq.
    + by rewrite list_lookup_insert_ne by congruence.
Qed.

Lemma swapped_sc k :
  sc (swapped i j a b s) k =
    if decide (k = j) then sc s i else if decide (k = i) then sc s j else sc s k.
Proof.
  unfold sc at 1. rewrite swapped_lookup.
  repeat case_decide; simpl; unfold score_of; simpl.
  - by rewrite (sc_lookup _ _ _ Hi).
  - by rewrite (sc_lookup _ _ _ Hj).
  - reflexivity.
Qed.

Lemma swapped_perm : heap (swapped i j a b s) ≡ₚ heap s.
Proof. simpl. by apply Permutation_insert_swap. Qed.
End swapped_array.

(** ** The outcome monad *)

Lemma bind_Ok {A B} (m : result A) (f : A → result B) b :
  m ≫= f = Ok b → ∃ a, m = Ok a ∧ f a = Ok b.
Proof. destruct m; simpl; intros H; try discriminate. eauto. Qed.

Lemma bind_Ok_l {A B} (a : A) (f : A → result B) : Ok a ≫= f = f a.
Proof. reflexivity. Qed.

Lemma bind_fuel {A B} (m : result A) (f : A → result B) :
  m ≠ OutOfFuel → (∀ a, f a ≠ OutOfFuel) → m ≫= f ≠ OutOfFuel.
Proof. destruct m; simpl; auto. Qed.

Ltac bind_inv H :=
  let a := fresh "x" in
  let E := fresh "E" in
  apply bind_Ok in H as (a & E & H).

(** ** Properties kept by every swap are kept by both sifts *)

Lemma sift_up_loop_closed (P : State → Prop) :
  swap_closed P →
  ∀ fuel i s s', P s → sift_up_loop fuel i s = Ok s' → P s'.
Proof.
  intros HP. induction fuel as [|fuel IH]; intros i s s' Hs H; [discriminate|].
  simpl in H. destruct (0 <? i) eqn:Hi; [|by injection H as <-].
  apply Nat.ltb_lt in Hi.
  bind_inv H. bind_inv H.
  destruct (x0 <? x)%Z; [|by injection H as <-].
  bind_inv H. apply swap_Ok in E1 as (a & b & Ha & Hb & ->).
  eapply IH; [|exact H]. apply HP; auto.
  pose proof (parent_lt i Hi). lia.
Qed.

Lemma pick_child_Ok c m s k :
  pick_child c m s = Ok k →
  k = m ∨ (k = c ∧ c < length (heap s) ∧ m < length (heap s) ∧ (sc s m < sc s c)%Z).
Proof.
  unfold pick_child. destruct (c <? length (heap s)) eqn:Hc; [|intros [= <-]; auto].
  apply Nat.ltb_lt in Hc. intros H. bind_inv H. bind_inv H.
  apply score_at_Ok in E as [_ ->]. apply score_at_Ok in E0 as [Hm ->].
  injection H as <-. destruct (sc s m <? sc s c)%Z eqn:Hlt; auto.
  apply Z.ltb_lt in Hlt. auto.
Qed.

Lemma pick_child_sc c m s :
  m < length (heap s) →
  pick_child c m s =
    Ok (if decide (c < length (heap s) ∧ (sc s m < sc s c)%Z) then c else m).
Proof.
  intros Hm. unfold pick_child. destruct (c <? length (heap s)) eqn:Hc.
  - apply Nat.ltb_lt in Hc. rewrite !score_at_sc by done. simpl.
    destruct (sc s m <? sc s c)%Z eqn:Hlt.
    + apply Z.ltb_lt in Hlt. by rewrite decide_True.
    + apply Z.ltb_ge in Hlt. rewrite decide_False; [done|lia].
  - apply Nat.ltb_ge in Hc. rewrite decide_False; [done|lia].
Qed.

Lemma pick_child_out c m s : length (heap s) ≤ c → pick_child c m s = Ok m.
Proof. intros H. unfold pick_child. apply Nat.ltb_ge in H. by rewrite H. Qed.

Lemma sift_down_rec_closed (P : State → Prop) :
  swap_closed P →
  ∀ fuel i s s', P s → sift_down_rec fuel i s = Ok s' → P s'.
Proof.
  intros HP. induction fuel as [|fuel IH]; intros i s s' Hs H; [discriminate|].
  simpl in H. bind_inv H. bind_inv H.
  destruct (i =? x0) eqn:Hx; simpl in H; [by injection H as <-|].
  apply Nat.eqb_neq in Hx.
  bind_inv H. apply swap_Ok in E1 as (a & b & Ha & Hb & ->).
  eapply IH; [|exact H]. by apply HP.
Qed.

Lemma same_content_closed s0 : swap_closed (same_content s0).
Proof.
  intros i j a b s _ Ha Hb [Ho Hp]. split; [exact Ho|].
  by rewrite swapped_perm.
Qed.

Lemma same_content_length s0 s :
  same_content s0 s → length (heap s) = length (heap s0).
Proof. intros [_ Hp]. by rewrite Hp. Qed.

Lemma same_content_refl s : same_content s s.
Proof. by split. Qed.

Lemma sift_up_content i s s' : _sift_up i s = Ok s' → same_content s s'.
Proof.
  intros H.
  exact (sift_up_loop_closed _ (same_content_closed s) _ _ _ _ (same_content_refl s) H).
Qed.

Lemma sift_down_content i s s' : _sift_down i s = Ok s' → same_content s s'.
Proof.
  intros H.
  exact (sift_down_rec_closed _ (same_content_closed s) _ _ _ _ (same_content_refl s) H).
Qed.

(** ** Both sifts complete *)

Lemma sift_up_loop_total fuel : ∀ i s,
  i < fuel → i < length (heap s) → ∃ s', sift_up_loop fuel i s = Ok s'.
Proof.
  induction fuel as [|fuel IH]; intros i s Hf Hi; [lia|].
  simpl. destruct (0 <? i) eqn:H0; [|eauto].
  apply Nat.ltb_lt in H0. pose proof (parent_lt i H0) as Hp.
  rewrite !score_at_sc by lia. simpl.
  destruct (sc s (_parent i) <? sc s i)%Z; [|eauto].
  destruct (swap_in_range s i (_parent i)) as [s1 E]; [lia..|].
  rewrite E. simpl. pose proof E as E'.
  apply swap_Ok in E' as (a & b & _ & _ & ->).
  apply IH; [lia|]. rewrite swapped_length. lia.
Qed.

Lemma sift_up_total i s : i < length (heap s) → ∃ s', _sift_up i s = Ok s'.
Proof. intros. apply sift_up_loop_total; [lia|done]. Qed.

Lemma max_child_cases i s :
  max_child i s = i ∨
  (i < max_child i s < length (heap s) ∧ _parent (max_child i s) = i ∧
   (sc s i < sc s (max_child i s))%Z).
Proof.
  unfold max_child. pose proof (parent_left i). pose proof (parent_right i).
  repeat case_decide; auto; right; unfold _left, _right in *; lia.
Qed.

Lemma max_child_ge i s c :
  c < length (heap s) → 0 < c → _parent c = i →
  (sc s c ≤ sc s (max_child i s))%Z.
Proof.
  intros Hc H0 Hp. destruct (child_cases c H0) as [E|E]; rewrite Hp in E;
    clear Hp; subst c; unfold max_child; repeat case_decide; lia.
Qed.

Lemma sift_down_rec_step fuel i s :
  sift_down_rec (S fuel) i s =
    if decide (max_child i s = i) then Ok s
    else s' ← _swap i (max_child i s) s; sift_down_rec fuel (max_child i s) s'.
Proof.
  simpl. destruct (decide (i < length (heap s))) as [Hi|Hi].
  - rewrite pick_child_sc by done. simpl.
    rewrite pick_child_sc by (case_decide; lia). simpl.
    fold (max_child i s).
    destruct (decide (max_child i s = i)) as [->|Hne].
    + by rewrite Nat.eqb_refl.
    + apply not_eq_sym, Nat.eqb_neq in Hne. by rewrite Hne.
  - rewrite pick_child_out by (unfold _left; lia). simpl.
    rewrite pick_child_out by (unfold _right; lia). simpl.
    rewrite Nat.eqb_refl. simpl.
    rewrite decide_True; [done|].
    destruct (max_child_cases i s) as [|[? _]]; [done|lia].
Qed.

Lemma sift_down_rec_total fuel : ∀ i s,
  length (heap s) - i < fuel → ∃ s', sift_down_rec fuel i s = Ok s'.
Proof.
  induction fuel as [|fuel IH]; intros i s Hf; [lia|].
  rewrite sift_down_rec_step. case_decide; [eauto|].
  destruct (max_child_cases i s) as [|(Hm & _ & _)]; [done|].
  destruct (swap_in_range s i (max_child i s)) as [s1 E]; [lia..|].
  rewrite E. simpl. apply swap_Ok in E as (a & b & _ & _ & ->).
  apply IH. rewrite swapped_length. lia.
Qed.

Lemma sift_down_total i s : ∃ s', _sift_down i s = Ok s'.
Proof. apply sift_down_rec_total. lia. Qed.

(** ** Heap order through [_sift_up] *)

Lemma sift_up_loop_step fuel i s :
  i < length (heap s) →
  sift_up_loop (S fuel) i s =
    if decide (0 < i ∧ (sc s (_parent i) < sc s i)%Z)
    then s' ← _swap i (_parent i) s; sift_up_loop fuel (_parent i) s'
    else Ok s.
Proof.
  intros Hi. simpl. destruct (0 <? i) eqn:H0.
  - apply Nat.ltb_lt in H0. pose proof (parent_lt i H0).
    rewrite !score_at_sc by lia. simpl.
    destruct (sc s (_parent i) <? sc s i)%Z eqn:Hlt.
    + apply Z.ltb_lt in Hlt. by rewrite decide_True.
    + apply Z.ltb_ge in Hlt. rewrite decide_False; [done|lia].
  - apply Nat.ltb_ge in H0. rewrite decide_False; [done|lia].
Qed.

Lemma up_inv_hole i s : up_inv i s → hole_inv i s.
Proof. intros [H1 H2]. split; auto. Qed.

Lemma down_inv_hole i s : down_inv i s → hole_inv i s.
Proof. intros [H1 H2]. split; auto. Qed.

Lemma heap_ordered_up i s : heap_ordered s → up_inv i s.
Proof.
  intros H. split; [auto|]. intros c Hi Hc H0 Hp.
  pose proof (H c ltac:(lia)). pose proof (parent_lt c H0).
  pose proof (H i ltac:(lia)). rewrite Hp in *. lia.
Qed.

Lemma heap_ordered_down i s : heap_ordered s → down_inv i s.
Proof.
  intros H. split; [auto|]. by apply (heap_ordered_up i s).
Qed.

Lemma swapped_up i a b s :
  0 < i → heap s !! i = Some a → heap s !! _parent i = Some b →
  (sc s (_parent i) < sc s i)%Z →
  hole_inv i s →
  up_inv (_parent i) (swapped i (_parent i) a b s).
Proof.
  intros H0 Ha Hb Hlt [H1 H2].
  pose proof (parent_lt i H0) as Hp.
  pose proof (lookup_lt_Some _ _ _ Ha) as Hlen.
  split.
  - intros k. rewrite swapped_length. intros Hk Hne.
    rewrite !(swapped_sc _ _ _ _ _ Ha Hb).
    pose proof (parent_lt k ltac:(lia)).
    rewrite decide_False by done.
    destruct (decide (k = i)) as [->|Hki].
    + rewrite decide_True by done. lia.
    + destruct (decide (_parent k = _parent i)) as [E|E].
      * rewrite E in *. pose proof (H1 k ltac:(lia) Hki ltac:(lia)). rewrite E in *. lia.
      * destruct (decide (_parent k = i)) as [E'|E'].
        -- apply (H2 k); lia.
        -- apply (H1 k); lia.
  - intros c Hpp. rewrite swapped_length. intros Hc Hc0 Hpc.
    rewrite !(swapped_sc _ _ _ _ _ Ha Hb).
    pose proof (parent_lt _ Hpp).
    pose proof (H1 (_parent i) ltac:(lia) ltac:(lia) ltac:(lia)).
    rewrite (decide_False (P := _parent (_parent i) = _parent i)) by lia.
    rewrite (decide_False (P := _parent (_parent i) = i)) by lia.
    rewrite (decide_False (P := c = _parent i)) by (pose proof (parent_lt c Hc0); lia).
    destruct (decide (c = i)) as [->|Hci]; [lia|].
    pose proof (H1 c ltac:(lia) Hci ltac:(lia)). rewrite Hpc in *. lia.
Qed.

Lemma sift_up_loop_ordered fuel : ∀ i s s',
  i < length (heap s) → up_inv i s →
  sift_up_loop fuel i s = Ok s' → heap_ordered s'.
Proof.
  induction fuel as [|fuel IH]; intros i s s' Hi Hinv H; [discriminate|].
  rewrite sift_up_loop_step in H by done.
  case_decide as Hc.
  - destruct Hc as [H0 Hlt]. bind_inv H.
    apply swap_Ok in E as (a & b & Ha & Hb & ->).
    eapply IH; [| |exact H].
    + rewrite swapped_length. pose proof (parent_lt i H0). lia.
    + apply swapped_up; auto using up_inv_hole.
  - injection H as <-. destruct Hinv as [H1 _].
    intros k Hk. destruct (decide (k = i)) as [->|]; [lia|]. by apply H1.
Qed.

(** From a state ordered on every edge away from [i], the loop either does
    nothing (the edge above [i] was in order) or ends in a heap. *)
Lemma sift_up_loop_hole fuel i s s' :
  i < length (heap s) → hole_inv i s →
  sift_up_loop fuel i s = Ok s' →
  (s' = s ∧ down_inv i s) ∨ heap_ordered s'.
Proof.
  intros Hi Hinv H. destruct fuel as [|fuel]; [discriminate|].
  rewrite sift_up_loop_step in H by done.
  case_decide as Hc.
  - right. destruct Hc as [H0 Hlt]. bind_inv H.
    apply swap_Ok in E as (a & b & Ha & Hb & ->).
    assert (Hu := swapped_up i a b s H0 Ha Hb Hlt Hinv).
    pose proof (parent_lt i H0).
    eapply sift_up_loop_ordered; [|exact Hu|exact H].
    rewrite swapped_length. lia.
  - left. injection H as <-. split; [done|].
    destruct Hinv as [H1 H2]. split; [|done].
    intros k Hk Hp. destruct (decide (k = i)) as [->|]; [lia|]. by apply H1.
Qed.

(** ** Heap order through [_sift_down] *)

Lemma swapped_down i a b s :
  max_child i s ≠ i →
  heap s !! i = Some a → heap s !! max_child i s = Some b →
  down_inv i s →
  down_inv (max_child i s) (swapped i (max_child i s) a b s).
Proof.
  intros Hne Ha Hb [H1 H2].
  destruct (max_child_cases i s) as [|(Hm & Hpm & Hlt)]; [done|].
  pose proof (max_child_ge i s) as Hge.
  set (m := max_child i s) in *.
  split.
  - intros k. rewrite swapped_length. intros Hk Hp.
    rewrite !(swapped_sc _ _ _ _ _ Ha Hb).
    pose proof (parent_lt k ltac:(lia)).
    rewrite (decide_False (P := _parent k = m)) by done.
    destruct (decide (k = m)) as [->|Hkm].
    + rewrite Hpm. rewrite decide_True by done. lia.
    + destruct (decide (k = i)) as [->|Hki].
      * rewrite decide_False by lia. apply (H2 m); lia.
      * destruct (decide (_parent k = i)) as [E|E].
        -- apply Hge; lia.
        -- apply H1; lia.
  - intros c Hm0. rewrite swapped_length. intros Hc Hc0 Hpc.
    rewrite !(swapped_sc _ _ _ _ _ Ha Hb).
    pose proof (parent_lt c Hc0).
    rewrite Hpm. rewrite (decide_False (P := i = m)) by lia.
    rewrite (decide_True (P := i = i)) by done.
    rewrite (decide_False (P := c = m)) by lia.
    rewrite (decide_False (P := c = i)) by lia.
    pose proof (H1 c ltac:(lia) ltac:(lia)) as Hcm. rewrite Hpc in Hcm. exact Hcm.
Qed.

Lemma sift_down_rec_ordered fuel : ∀ i s s',
  down_inv i s → sift_down_rec fuel i s = Ok s' → heap_ordered s'.
Proof.
  induction fuel as [|fuel IH]; intros i s s' Hinv H; [discriminate|].
  rewrite sift_down_rec_step in H. case_decide as Hc.
  - injection H as <-. destruct Hinv as [H1 _]. intros k Hk.
    destruct (decide (_parent k = i)) as [E|E]; [|by apply H1].
    pose proof (max_child_ge i s k ltac:(lia) ltac:(lia) E) as Hge.
    rewrite Hc in Hge. by rewrite E.
  - bind_inv H. apply swap_Ok in E as (a & b & Ha & Hb & ->).
    eapply IH; [|exact H]. by apply swapped_down.
Qed.

Lemma max_child_ordered i s : heap_ordered s → max_child i s = i.
Proof.
  intros H. destruct (max_child_cases i s) as [|(Hm & Hpm & Hlt)]; [done|].
  pose proof (H (max_child i s) ltac:(lia)) as Hle. rewrite Hpm in Hle. lia.
Qed.

(** On a heap [_sift_down] moves nothing. *)
Lemma sift_down_noop i s : heap_ordered s → _sift_down i s = Ok s.
Proof.
  intros H. unfold _sift_down. rewrite sift_down_rec_step.
  by rewrite decide_True by by apply max_child_ordered.
Qed.

(** On a heap [_sift_up] moves nothing. *)
Lemma sift_up_noop i s :
  i < length (heap s) → (0 < i → (sc s i ≤ sc s (_parent i))%Z) →
  _sift_up i s = Ok s.
Proof.
  intros Hi H. unfold _sift_up. rewrite sift_up_loop_step by done.
  rewrite decide_False; [done|]. intros [H0 Hlt]. specialize (H H0). lia.
Qed.

Lemma sift_up_ordered i s s' :
  i < length (heap s) → up_inv i s → _sift_up i s = Ok s' → heap_ordered s'.
Proof. apply sift_up_loop_ordered. Qed.

Lemma sift_down_ordered i s s' :
  down_inv i s → _sift_down i s = Ok s' → heap_ordered s'.
Proof. apply sift_down_rec_ordered. Qed.

(** ** The position map through [_swap] *)

Section swapped_map.
Context (i j : nat) (a b : ref) (s : State).
Hypothesis Ha : heap s !! i = Some a.
Hypothesis Hb : heap s !! j = Some b.

Lemma swapped_map_valid : map_valid s → map_valid (swapped i j a b s).
Proof.
  intros Hv pid k Hk.
  rewrite (swapped_lookup _ _ _ _ _ Ha Hb).
  unfold id_of in *. simpl in *.
  destruct (decide (player_id (objects s a) = pid)) as [Ea|Ea].
  - subst pid. rewrite lookup_insert_eq in Hk. injection Hk as <-.
    rewrite decide_True by done. eauto.
  - rewrite lookup_insert_ne in Hk by done.
    destruct (decide (player_id (objects s b) = pid)) as [Eb|Eb].
    + subst pid. rewrite lookup_insert_eq in Hk. injection Hk as <-.
      destruct (decide (i = j)) as [E|];
        [exfalso; rewrite E, Hb in Ha; by simplify_eq|].
      rewrite decide_True by done. eauto.
    + rewrite lookup_insert_ne in Hk by done.
      destruct (Hv pid k Hk) as (r & Hr & Hid). unfold id_of in Hid.
      destruct (decide (k = j)) as [->|]; [exfalso; congruence|].
      destruct (decide (k = i)) as [->|]; [exfalso; congruence|]. eauto.
Qed.

Lemma swapped_indexed : indexed s → indexed (swapped i j a b s).
Proof.
  intros Hx k r.
  rewrite (swapped_lookup _ _ _ _ _ Ha Hb).
  pose proof (Hx _ _ Ha) as Hma. pose proof (Hx _ _ Hb) as Hmb.
  unfold indexed, id_of in *. simpl. unfold id_of.
  destruct (decide (k = j)) as [->|Hkj].
  - intros [= <-]. by rewrite lookup_insert_eq.
  - destruct (decide (k = i)) as [->|Hki].
    + intros [= <-]. rewrite lookup_insert_ne by congruence.
      by rewrite lookup_insert_eq.
    + intros Hr. pose proof (Hx _ _ Hr) as Hmr.
      rewrite !lookup_insert_ne by congruence. done.
Qed.
End swapped_map.

Lemma swapped_has_key i j a b s pid :
  is_Some (position_map s !! pid) →
  is_Some (position_map (swapped i j a b s) !! pid).
Proof.
  intros H. simpl. rewrite !lookup_insert. repeat case_decide; eauto.
Qed.

Lemma map_valid_closed : swap_closed map_valid.
Proof. intros i j a b s _. apply swapped_map_valid. Qed.

Lemma indexed_closed : swap_closed indexed.
Proof. intros i j a b s _. apply swapped_indexed. Qed.

(** An indexed array holds each id, hence each object, once. *)
Lemma indexed_inj s i j r r' :
  indexed s → heap s !! i = Some r → heap s !! j = Some r' →
  id_of s r = id_of s r' → i = j.
Proof.
  intros Hx Hi Hj E. pose proof (Hx _ _ Hi) as H1. pose proof (Hx _ _ Hj) as H2.
  rewrite E in H1. congruence.
Qed.

Lemma indexed_NoDup_ids s : indexed s → NoDup (id_of s <$> heap s).
Proof.
  intros Hx. apply NoDup_alt. intros i j pid Hi Hj.
  rewrite list_lookup_fmap in Hi, Hj.
  destruct (heap s !! i) as [r|] eqn:Ei; [|discriminate].
  destruct (heap s !! j) as [r'|] eqn:Ej; [|discriminate].
  simpl in *. eapply indexed_inj; eauto. congruence.
Qed.

Lemma indexed_NoDup s : indexed s → NoDup (heap s).
Proof. intros Hx. eapply NoDup_fmap_1, indexed_NoDup_ids, Hx. Qed.

(** ** [add_player] *)

Lemma add_player_unfold r s :
  add_player r s = s3 ← _sift_up (length (heap s)) (appended r s); Ok (RNone, s3).
Proof.
  unfold add_player. simpl. rewrite length_app. simpl.
  replace (length (heap s) + 1 - 1) with (length (heap s)) by lia. reflexivity.
Qed.

Lemma add_player_Ok r s v s' :
  add_player r s = Ok (v, s') →
  v = RNone ∧ _sift_up (length (heap s)) (appended r s) = Ok s'.
Proof.
  rewrite add_player_unfold. intros H. bind_inv H. by injection H as <- <-.
Qed.

Lemma add_player_total r s : ∃ s', add_player r s = Ok (RNone, s').
Proof.
  rewrite add_player_unfold.
  destruct (sift_up_total (length (heap s)) (appended r s)) as [s' E].
  { simpl. rewrite length_app. simpl. lia. }
  rewrite E. eauto.
Qed.

Lemma add_player_content r s v s' :
  add_player r s = Ok (v, s') →
  objects s' = objects s ∧ heap s' ≡ₚ heap s ++ [r].
Proof.
  intros H. apply add_player_Ok in H as [_ H].
  apply sift_up_content in H as [Ho Hp]. by split.
Qed.

Lemma appended_map_valid r s : map_valid s → map_valid (appended r s).
Proof.
  intros Hv pid k Hk. simpl in *. unfold id_of in *. simpl.
  destruct (decide (player_id (objects s r) = pid)) as [E|E].
  - subst pid. rewrite lookup_insert_eq in Hk. injection Hk as <-.
    exists r. split; [|done]. rewrite lookup_app_r by lia.
    by rewrite Nat.sub_diag.
  - rewrite lookup_insert_ne in Hk by done.
    destruct (Hv pid k Hk) as (r' & Hr & Hid). exists r'. split; [|done].
    rewrite lookup_app_l; [done|]. by eapply lookup_lt_Some.
Qed.

Lemma appended_indexed r s :
  indexed s → position_map s !! id_of s r = None → indexed (appended r s).
Proof.
  intros Hx Hnew k r'. simpl. unfold id_of in *. simpl.
  destruct (decide (k < length (heap s))) as [Hk|Hk].
  - rewrite lookup_app_l by done. intros Hr. pose proof (Hx _ _ Hr) as Hm.
    unfold id_of in Hm.
    rewrite lookup_insert_ne; [done|]. intros E. rewrite E in Hnew. congruence.
  - intros Hr. pose proof (lookup_lt_Some _ _ _ Hr) as Hlt.
    rewrite length_app in Hlt. simpl in Hlt.
    assert (k = length (heap s)) as -> by lia.
    rewrite lookup_app_r in Hr by lia. rewrite Nat.sub_diag in Hr.
    injection Hr as <-. by rewrite lookup_insert_eq.
Qed.

Lemma appended_sc r s k : k < length (heap s) → sc (appended r s) k = sc s k.
Proof. intros Hk. unfold sc. simpl. by rewrite lookup_app_l. Qed.

Lemma appended_up r s : heap_ordered s → up_inv (length (heap s)) (appended r s).
Proof.
  intros H. split.
  - intros k. simpl. rewrite length_app. simpl. intros Hk Hne.
    pose proof (parent_lt k ltac:(lia)).
    rewrite !appended_sc by lia. apply H. lia.
  - intros c _. simpl. rewrite length_app. simpl. intros Hc H0 Hp.
    pose proof (parent_lt c H0). lia.
Qed.

Lemma add_player_map_valid r s v s' :
  map_valid s → add_player r s = Ok (v, s') → map_valid s'.
Proof.
  intros Hv H. apply add_player_Ok in H as [_ H].
  eapply (sift_up_loop_closed _ map_valid_closed); [|exact H].
  by apply appended_map_valid.
Qed.

Lemma add_player_indexed r s v s' :
  indexed s → position_map s !! id_of s r = None →
  add_player r s = Ok (v, s') → indexed s'.
Proof.
  intros Hx Hnew H. apply add_player_Ok in H as [_ H].
  eapply (sift_up_loop_closed _ indexed_closed); [|exact H].
  by apply appended_indexed.
Qed.

Lemma add_player_ordered r s v s' :
  heap_ordered s → add_player r s = Ok (v, s') → heap_ordered s'.
Proof.
  intros Ho H. apply add_player_Ok in H as [_ H].
  eapply sift_up_ordered; [|by apply appended_up|exact H].
  simpl. rewrite length_app. simpl. lia.
Qed.

(** ** [fold_player] *)

Lemma heap_pop_Ok s :
  0 < length (heap s) → heap_pop s = Ok (set_heap (removelast (heap s)) s).
Proof. unfold heap_pop. destruct (heap s); simpl; [lia|done]. Qed.

Lemma position_map_del_Ok pid s :
  is_Some (position_map s !! pid) →
  position_map_del pid s = Ok (set_position_map (delete pid (position_map s)) s).
Proof. intros [k Hk]. unfold position_map_del. by rewrite Hk. Qed.

Lemma fold_detach_lookup pid index r b s :
  heap s !! index = Some r → heap s !! (length (heap s) - 1) = Some b →
  is_Some (position_map s !! pid) →
  fold_detach pid index s = Ok (detached pid index r b s).
Proof.
  intros Hr Hb Hk. unfold fold_detach.
  rewrite (swap_lookup _ _ _ _ _ Hr Hb). simpl.
  pose proof (lookup_lt_Some _ _ _ Hr).
  rewrite heap_pop_Ok by (rewrite swapped_length; lia). simpl.
  rewrite position_map_del_Ok by (by apply swapped_has_key). reflexivity.
Qed.

Lemma detached_heap pid index r b s :
  heap (detached pid index r b s) =
    take (length (heap s) - 1) (<[index := b]> (heap s)).
Proof.
  simpl. rewrite removelast_firstn_len, !length_insert.
  rewrite Nat.sub_1_r. apply take_insert_ge. lia.
Qed.

Lemma detached_length pid index r b s :
  length (heap (detached pid index r b s)) = length (heap s) - 1.
Proof. rewrite detached_heap, length_take, length_insert. lia. Qed.

Lemma detached_lookup pid index r b s k :
  k < length (heap s) - 1 →
  heap (detached pid index r b s) !! k =
    if decide (k = index) then Some b else heap s !! k.
Proof.
  intros Hk. rewrite detached_heap, lookup_take_lt by done.
  case_decide as E.
  - subst k. apply list_lookup_insert_eq. lia.
  - by rewrite list_lookup_insert_ne.
Qed.

Lemma detached_snoc pid index r b s :
  heap s !! index = Some r → heap s !! (length (heap s) - 1) = Some b →
  heap (detached pid index r b s) ++ [r] =
    <[length (heap s) - 1 := r]> (<[index := b]> (heap s)).
Proof.
  intros Hr Hb. pose proof (lookup_lt_Some _ _ _ Hr) as Hlt.
  set (l := <[length (heap s) - 1 := r]> (<[index := b]> (heap s))).
  assert (Hlen : length l = length (heap s)) by (unfold l; by rewrite !length_insert).
  assert (Hl : l !! (length (heap s) - 1) = Some r).
  { unfold l. apply list_lookup_insert_eq. rewrite length_insert. lia. }
  change (heap (detached pid index r b s)) with (removelast l).
  rewrite removelast_firstn_len, Hlen, <- Nat.sub_1_r.
  rewrite <- (take_S_r _ _ _ Hl).
  apply take_ge. lia.
Qed.

Lemma detached_perm pid index r b s :
  heap s !! index = Some r → heap s !! (length (heap s) - 1) = Some b →
  heap (detached pid index r b s) ++ [r] ≡ₚ heap s.
Proof.
  intros Hr Hb. rewrite (detached_snoc _ _ _ _ _ Hr Hb).
  by apply Permutation_insert_swap.
Qed.

Lemma detached_sc pid index r b s k :
  k < length (heap s) - 1 →
  heap s !! (length (heap s) - 1) = Some b →
  sc (detached pid index r b s) k =
    if decide (k = index) then sc s (length (heap s) - 1) else sc s k.
Proof.
  intros Hk Hb. unfold sc at 1. rewrite detached_lookup by done.
  case_decide; [|done]. simpl. by rewrite (sc_lookup _ _ _ Hb).
Qed.

Lemma detached_map_valid pid index r b s :
  heap s !! index = Some r → heap s !! (length (heap s) - 1) = Some b →
  id_of s r = pid →
  map_valid s → map_valid (detached pid index r b s).
Proof.
  intros Hr Hb Hid Hv pid' k Hk.
  pose proof (swapped_map_valid _ _ _ _ _ Hr Hb Hv) as Hv1.
  simpl in Hk. apply lookup_delete_Some in Hk as [Hne Hk].
  destruct (Hv1 pid' k Hk) as (r' & Hr' & Hid').
  rewrite (swapped_lookup _ _ _ _ _ Hr Hb) in Hr'.
  pose proof (lookup_lt_Some _ _ _ Hr) as Hlt.
  assert (k < length (heap s) - 1) as Hlt'.
  { destruct (decide (k = length (heap s) - 1)) as [E|E].
    - injection Hr' as <-. unfold id_of in *. simpl in *. congruence.
    - assert (k < length (heap s)); [|lia].
      case_decide; [lia|]. by eapply lookup_lt_Some. }
  exists r'. split; [|exact Hid'].
  rewrite detached_lookup by done.
  rewrite decide_False in Hr' by lia. exact Hr'.
Qed.

Lemma detached_indexed pid index r b s :
  heap s !! index = Some r → heap s !! (length (heap s) - 1) = Some b →
  id_of s r = pid →
  indexed s → indexed (detached pid index r b s).
Proof.
  intros Hr Hb Hid Hx k r' Hk.
  pose proof (swapped_indexed _ _ _ _ _ Hr Hb Hx) as Hx1.
  pose proof (lookup_lt_Some _ _ _ Hk) as Hlt. rewrite detached_length in Hlt.
  rewrite detached_lookup in Hk by done.
  assert (Hk1 : heap (swapped index (length (heap s) - 1) r b s) !! k = Some r').
  { rewrite (swapped_lookup _ _ _ _ _ Hr Hb). by rewrite decide_False by lia. }
  assert (Hl1 : heap (swapped index (length (heap s) - 1) r b s)
                  !! (length (heap s) - 1) = Some r).
  { rewrite (swapped_lookup _ _ _ _ _ Hr Hb). by rewrite decide_True. }
  pose proof (Hx1 _ _ Hk1) as Hm. pose proof (Hx1 _ _ Hl1) as Hm'.
  unfold id_of in *. simpl in *.
  rewrite lookup_delete_ne; [exact Hm|].
  intros E. subst pid. rewrite E in Hm'. rewrite Hm' in Hm. injection Hm. lia.
Qed.

Lemma detached_hole pid index r b s :
  heap s !! (length (heap s) - 1) = Some b →
  index < length (heap s) - 1 →
  heap_ordered s → hole_inv index (detached pid index r b s).
Proof.
  intros Hb Hi Ho. split.
  - intros k. rewrite detached_length. intros Hk Hne Hpne.
    pose proof (parent_lt k ltac:(lia)).
    rewrite !detached_sc by (done || lia).
    rewrite !decide_False by done. apply Ho. lia.
  - intros c H0. rewrite detached_length. intros Hc Hc0 Hp.
    pose proof (parent_lt c Hc0). pose proof (parent_lt index H0).
    rewrite !detached_sc by (done || lia).
    rewrite !decide_False by lia.
    pose proof (Ho c ltac:(lia)) as Hc1. pose proof (Ho index ltac:(lia)) as Hc2.
    rewrite Hp in Hc1. lia.
Qed.

Lemma detached_ordered pid index r b s :
  heap s !! (length (heap s) - 1) = Some b →
  ¬ index < length (heap s) - 1 →
  heap_ordered s → heap_ordered (detached pid index r b s).
Proof.
  intros Hb Hi Ho k. rewrite detached_length. intros Hk.
  pose proof (parent_lt k ltac:(lia)).
  rewrite !detached_sc by (done || lia).
  rewrite !decide_False by lia. apply Ho. lia.
Qed.

Lemma fold_player_absent pid s :
  position_map s !! pid = None → fold_player pid s = Ok (RNone, s).
Proof. intros H. unfold fold_player. by rewrite H. Qed.

Lemma fold_player_present pid index r b s :
  position_map s !! pid = Some index →
  heap s !! index = Some r → heap s !! (length (heap s) - 1) = Some b →
  fold_player pid s =
    if decide (index < length (heap s) - 1)
    then s4 ← _sift_up index (detached pid index r b s);
         s5 ← _sift_down index s4;
         Ok (RNone, s5)
    else Ok (RNone, detached pid index r b s).
Proof.
  intros Hm Hr Hb. unfold fold_player. rewrite Hm.
  rewrite (heap_at_lookup _ _ _ Hr). simpl.
  rewrite (fold_detach_lookup pid index r b s Hr Hb) by (by rewrite Hm).
  rewrite bind_Ok_l, detached_length.
  destruct (index <? length (heap s) - 1) eqn:E.
  - apply Nat.ltb_lt in E. by rewrite decide_True.
  - apply Nat.ltb_ge in E. rewrite decide_False; [done|lia].
Qed.

(** What one successful [fold_player] does to a state whose position map is
    valid. *)
Lemma fold_player_spec pid index s :
  map_valid s → position_map s !! pid = Some index →
  ∃ r s', heap s !! index = Some r ∧ id_of s r = pid ∧
    fold_player pid s = Ok (RNone, s') ∧
    objects s' = objects s ∧
    heap s' ++ [r] ≡ₚ heap s ∧
    map_valid s' ∧
    (indexed s → indexed s') ∧
    (heap_ordered s → heap_ordered s').
Proof.
  intros Hv Hm. destruct (Hv _ _ Hm) as (r & Hr & Hid).
  pose proof (lookup_lt_Some _ _ _ Hr) as Hlt.
  destruct (lookup_lt_is_Some_2 (heap s) (length (heap s) - 1)) as [b Hb]; [lia|].
  exists r. rewrite (fold_player_present _ _ _ _ _ Hm Hr Hb).
  set (s3 := detached pid index r b s).
  assert (Hv3 : map_valid s3) by (by apply detached_map_valid).
  assert (Hp3 : heap s3 ++ [r] ≡ₚ heap s) by (by apply detached_perm).
  assert (Hx3 : indexed s → indexed s3) by (by apply detached_indexed).
  case_decide as Hi.
  - destruct (sift_up_total index s3) as [s4 E4].
    { unfold s3. rewrite detached_length. lia. }
    destruct (sift_down_total index s4) as [s5 E5].
    rewrite E4. simpl. rewrite E5. simpl. exists s5.
    pose proof (sift_up_content _ _ _ E4) as [Ho4 Hp4].
    pose proof (sift_down_content _ _ _ E5) as [Ho5 Hp5].
    split; [done|]. split; [done|]. split; [done|].
    split; [by rewrite Ho5, Ho4|].
    split; [by rewrite Hp5, Hp4|].
    split.
    { eapply (sift_down_rec_closed _ map_valid_closed); [|exact E5].
      eapply (sift_up_loop_closed _ map_valid_closed); [|exact E4]. done. }
    split.
    { intros Hx.
      eapply (sift_down_rec_closed _ indexed_closed); [|exact E5].
      eapply (sift_up_loop_closed _ indexed_closed); [|exact E4]. auto. }
    intros Ho.
    assert (Hi3 : index < length (heap s3))
      by (unfold s3; rewrite detached_length; lia).
    destruct (sift_up_loop_hole _ _ _ _ Hi3
                (detached_hole pid index r b s Hb Hi Ho) E4) as [[-> Hd]|Ho4'].
    + eapply sift_down_ordered; eauto.
    + rewrite (sift_down_noop _ _ Ho4') in E5. by injection E5 as <-.
  - exists s3. repeat split; auto.
    intros Ho. by apply detached_ordered.
Qed.

(** ** [update_hand_strength] *)

Lemma set_hand_score_id r v s r' : id_of (set_hand_score r v s) r' = id_of s r'.
Proof. unfold id_of. simpl. by destruct (r' =? r). Qed.

Lemma set_hand_score_score r v s r' :
  score_of (set_hand_score r v s) r' = if decide (r' = r) then v else score_of s r'.
Proof.
  unfold score_of. simpl. destruct (r' =? r) eqn:E.
  - apply Nat.eqb_eq in E. by rewrite decide_True.
  - apply Nat.eqb_neq in E. by rewrite decide_False.
Qed.

Lemma set_hand_score_map_valid r v s :
  map_valid s → map_valid (set_hand_score r v s).
Proof.
  intros Hv pid k Hk. destruct (Hv pid k Hk) as (r' & Hr & Hid).
  exists r'. split; [done|]. by rewrite set_hand_score_id.
Qed.

Lemma set_hand_score_indexed r v s :
  indexed s → indexed (set_hand_score r v s).
Proof. intros Hx k r' Hk. rewrite set_hand_score_id. by apply Hx. Qed.

(** When the object sits in one slot only, one priority changes. *)
Lemma set_hand_score_sc index r v s k :
  NoDup (heap s) → heap s !! index = Some r →
  sc (set_hand_score r v s) k = if decide (k = index) then v else sc s k.
Proof.
  intros Hnd Hr. unfold sc. simpl.
  destruct (heap s !! k) as [r'|] eqn:Hk; simpl.
  - rewrite set_hand_score_score.
    destruct (decide (r' = r)) as [->|Hne].
    + rewrite decide_True; [done|]. eapply NoDup_lookup; eauto.
    + rewrite decide_False; [done|]. intros ->. congruence.
  - rewrite decide_False; [done|]. intros ->. congruence.
Qed.

Lemma update_hand_strength_absent pid v s :
  position_map s !! pid = None → update_hand_strength pid v s = Ok (RNone, s).
Proof. intros H. unfold update_hand_strength. by rewrite H. Qed.

Lemma update_hand_strength_present pid index r v s :
  position_map s !! pid = Some index → heap s !! index = Some r →
  update_hand_strength pid v s =
    s2 ← (if decide (sc s index < v)%Z
          then _sift_up index (set_hand_score r v s)
          else _sift_down index (set_hand_score r v s));
    Ok (RNone, s2).
Proof.
  intros Hm Hr. unfold update_hand_strength. rewrite Hm.
  rewrite (score_at_lookup _ _ _ Hr), bind_Ok_l.
  rewrite (heap_at_lookup _ _ _ Hr), bind_Ok_l.
  rewrite (heap_at_lookup (set_hand_score r v s) _ _ Hr), bind_Ok_l.
  rewrite (sc_lookup _ _ _ Hr).
  destruct (score_of s r <? v)%Z eqn:E.
  - apply Z.ltb_lt in E. by rewrite decide_True.
  - apply Z.ltb_ge in E. rewrite decide_False; [done|lia].
Qed.

Lemma raised_up index r v s :
  NoDup (heap s) → heap s !! index = Some r → (sc s index < v)%Z →
  heap_ordered s → up_inv index (set_hand_score r v s).
Proof.
  intros Hnd Hr Hlt Ho. pose proof (lookup_lt_Some _ _ _ Hr) as Hi. split.
  - intros k Hk Hne. simpl in Hk.
    rewrite !(set_hand_score_sc index) by done.
    rewrite decide_False by done. pose proof (Ho k Hk).
    case_decide as E; [rewrite E in *|]; lia.
  - intros c H0 Hc Hc0 Hp. simpl in Hc.
    pose proof (parent_lt c Hc0). pose proof (parent_lt index H0).
    rewrite !(set_hand_score_sc index) by done.
    rewrite !decide_False by lia.
    pose proof (Ho c ltac:(lia)) as Hc1. pose proof (Ho index ltac:(lia)) as Hc2.
    rewrite Hp in Hc1. lia.
Qed.

Lemma lowered_down index r v s :
  NoDup (heap s) → heap s !! index = Some r → (v ≤ sc s index)%Z →
  heap_ordered s → down_inv index (set_hand_score r v s).
Proof.
  intros Hnd Hr Hle Ho. pose proof (lookup_lt_Some _ _ _ Hr) as Hi. split.
  - intros k Hk Hne. simpl in Hk.
    rewrite !(set_hand_score_sc index) by done.
    rewrite (decide_False (P := _parent k = index)) by done.
    pose proof (Ho k Hk). case_decide as E; [rewrite E in *|]; lia.
  - intros c H0 Hc Hc0 Hp. simpl in Hc.
    pose proof (parent_lt c Hc0). pose proof (parent_lt index H0).
    rewrite !(set_hand_score_sc index) by done.
    rewrite !decide_False by lia.
    pose proof (Ho c ltac:(lia)) as Hc1. pose proof (Ho index ltac:(lia)) as Hc2.
    rewrite Hp in Hc1. lia.
Qed.

(** What one successful [update_hand_strength] does to a state whose
    position map is valid. *)
Lemma update_hand_strength_spec pid v index s :
  map_valid s → position_map s !! pid = Some index →
  ∃ r s', heap s !! index = Some r ∧ id_of s r = pid ∧
    update_hand_strength pid v s = Ok (RNone, s') ∧
    objects s' = objects (set_hand_score r v s) ∧
    heap s' ≡ₚ heap s ∧
    map_valid s' ∧
    (indexed s → indexed s') ∧
    (NoDup (heap s) → heap_ordered s → heap_ordered s').
Proof.
  intros Hv Hm. destruct (Hv _ _ Hm) as (r & Hr & Hid).
  pose proof (lookup_lt_Some _ _ _ Hr) as Hlt.
  exists r. rewrite (update_hand_strength_present _ _ _ _ _ Hm Hr).
  set (s1 := set_hand_score r v s).
  assert (Hv1 : map_valid s1) by (by apply set_hand_score_map_valid).
  assert (Hx1 : indexed s → indexed s1) by apply set_hand_score_indexed.
  case_decide as Hc.
  - destruct (sift_up_total index s1 Hlt) as [s2 E]. rewrite E, bind_Ok_l.
    exists s2. pose proof (sift_up_content _ _ _ E) as [Ho2 Hp2].
    split; [done|]. split; [done|]. split; [done|]. split; [done|].
    split; [done|]. split; [|split].
    + eapply (sift_up_loop_closed _ map_valid_closed); [exact Hv1|exact E].
    + intros Hx. eapply (sift_up_loop_closed _ indexed_closed); [|exact E]. auto.
    + intros Hnd Ho. apply (sift_up_ordered index s1 s2 Hlt); [|exact E].
      by apply raised_up.
  - destruct (sift_down_total index s1) as [s2 E]. rewrite E, bind_Ok_l.
    exists s2. pose proof (sift_down_content _ _ _ E) as [Ho2 Hp2].
    split; [done|]. split; [done|]. split; [done|]. split; [done|].
    split; [done|]. split; [|split].
    + eapply (sift_down_rec_closed _ map_valid_closed); [exact Hv1|exact E].
    + intros Hx. eapply (sift_down_rec_closed _ indexed_closed); [|exact E]. auto.
    + intros Hnd Ho. eapply sift_down_ordered; [|exact E].
      apply lowered_down; auto. lia.
Qed.

(** ** Sequences of calls *)

Lemma run_app ops1 ops2 s :
  run (ops1 ++ ops2) s = s' ← run ops1 s; run ops2 s'.
Proof.
  revert s. induction ops1 as [|o ops1 IH]; intros s; simpl; [done|].
  destruct (run_op o s) as [[v s1]| |]; simpl; auto.
Qed.

(** What every call keeps, on any state: the position map stays valid, and
    the call returns. *)
Lemma run_op_map_valid o s :
  map_valid s → ∃ v s', run_op o s = Ok (v, s') ∧ map_valid s'.
Proof.
  intros Hv. destruct o as [r| |pid|pid v]; simpl.
  - destruct (add_player_total r s) as [s' E]. exists RNone, s'. split; [done|].
    by eapply add_player_map_valid.
  - unfold get_winner. eauto.
  - destruct (position_map s !! pid) as [index|] eqn:Hm.
    + destruct (fold_player_spec _ _ _ Hv Hm) as (r & s' & _ & _ & E & _ & _ & Hv' & _).
      eauto.
    + rewrite fold_player_absent by done. eauto.
  - destruct (position_map s !! pid) as [index|] eqn:Hm.
    + destruct (update_hand_strength_spec _ v _ _ Hv Hm)
        as (r & s' & _ & _ & E & _ & _ & Hv' & _).
      eauto.
    + rewrite update_hand_strength_absent by done. eauto.
Qed.

Lemma init_map_valid objs : map_valid (init objs).
Proof. intros pid k Hk. simpl in Hk. by rewrite lookup_empty in Hk. Qed.

Lemma init_indexed objs : indexed (init objs).
Proof. intros k r Hk. simpl in Hk. by rewrite lookup_nil in Hk. Qed.

Lemma init_ordered objs : heap_ordered (init objs).
Proof. intros k Hk. simpl in Hk. lia. Qed.

Lemma init_NoDup objs : NoDup (heap (init objs)).
Proof. apply NoDup_nil. done. Qed.

(** The empty structure satisfies every invariant. *)
Create HintDb heap.
#[local] Hint Resolve init_map_valid init_indexed init_ordered init_NoDup : heap.

Lemma run_map_valid ops : ∀ s,
  map_valid s → ∃ s', run ops s = Ok s' ∧ map_valid s'.
Proof.
  induction ops as [|o ops IH]; intros s Hv; simpl; [eauto|].
  destruct (run_op_map_valid o s Hv) as (v & s1 & E & Hv1).
  rewrite E. simpl. by apply IH.
Qed.

(** With distinct objects in the slots, every call keeps the heap order. *)
Lemma run_op_ordered o s v s' :
  map_valid s → NoDup (heap s) → heap_ordered s →
  match o with AddPlayer r => r ∉ heap s | _ => True end →
  run_op o s = Ok (v, s') →
  NoDup (heap s') ∧ heap_ordered s'.
Proof.
  intros Hv Hnd Ho Hnew E. destruct o as [r| |pid|pid w]; simpl in E.
  - pose proof (add_player_content _ _ _ _ E) as [_ Hp]. split.
    + rewrite Hp. apply NoDup_app. repeat split; auto.
      * intros x Hx Hx'. apply list_elem_of_singleton in Hx'. by subst.
      * apply NoDup_singleton.
    + by eapply add_player_ordered.
  - unfold get_winner in E. by injection E as _ <-.
  - destruct (position_map s !! pid) as [index|] eqn:Hm.
    + destruct (fold_player_spec _ _ _ Hv Hm)
        as (r & s1 & _ & _ & E1 & _ & Hp & _ & _ & Ho1).
      rewrite E1 in E. injection E as _ <-. split; [|auto].
      rewrite <- Hp in Hnd. by apply NoDup_app in Hnd as [? _].
    + rewrite fold_player_absent in E by done. by injection E as _ <-.
  - destruct (position_map s !! pid) as [index|] eqn:Hm.
    + destruct (update_hand_strength_spec _ w _ _ Hv Hm)
        as (r & s1 & _ & _ & E1 & _ & Hp & _ & _ & Ho1).
      rewrite E1 in E. injection E as _ <-. split; [|auto]. by rewrite Hp.
    + rewrite update_hand_strength_absent in E by done. by injection E as _ <-.
Qed.

Lemma run_ordered ops : ∀ s,
  map_valid s → NoDup (heap s) → heap_ordered s →
  adds_new_objects ops s = true →
  ∃ s', run ops s = Ok s' ∧ map_valid s' ∧ NoDup (heap s') ∧ heap_ordered s'.
Proof.
  induction ops as [|o ops IH]; intros s Hv Hnd Ho Hnew; simpl; [eauto|].
  simpl in Hnew. apply andb_true_iff in Hnew as [Hn1 Hn2].
  destruct (run_op_map_valid o s Hv) as (v & s1 & E & Hv1).
  rewrite E in Hn2 |- *. simpl in *.
  destruct (run_op_ordered o s v s1 Hv Hnd Ho) as [Hnd1 Ho1]; auto.
  { destruct o; auto. by apply bool_decide_eq_true in Hn1. }
Qed.

Lemma adds_new_objects_take ops : ∀ n s,
  adds_new_objects ops s = true → adds_new_objects (take n ops) s = true.
Proof.
  induction ops as [|o ops IH]; intros [|n] s H; simpl in *; auto.
  apply andb_true_iff in H as [H1 H2]. rewrite H1. simpl.
  destruct (run_op o s) as [p| |]; auto.
Qed.

(** With new ids at every [add_player], every call keeps the array indexed. *)
Lemma run_op_indexed o s v s' :
  map_valid s → indexed s →
  match o with AddPlayer r => position_map s !! id_of s r = None | _ => True end →
  run_op o s = Ok (v, s') → indexed s'.
Proof.
  intros Hv Hx Hnew E. destruct o as [r| |pid|pid w]; simpl in E.
  - by eapply add_player_indexed.
  - unfold get_winner in E. by injection E as _ <-.
  - destruct (position_map s !! pid) as [index|] eqn:Hm.
    + destruct (fold_player_spec _ _ _ Hv Hm)
        as (r & s1 & _ & _ & E1 & _ & _ & _ & Hx1 & _).
      rewrite E1 in E. injection E as _ <-. auto.
    + rewrite fold_player_absent in E by done. by injection E as _ <-.
  - destruct (position_map s !! pid) as [index|] eqn:Hm.
    + destruct (update_hand_strength_spec _ w _ _ Hv Hm)
        as (r & s1 & _ & _ & E1 & _ & _ & _ & Hx1 & _).
      rewrite E1 in E. injection E as _ <-. auto.
    + rewrite update_hand_strength_absent in E by done. by injection E as _ <-.
Qed.

Lemma run_indexed ops : ∀ s,
  map_valid s → indexed s → adds_new_ids ops s = true →
  ∃ s', run ops s = Ok s' ∧ map_valid s' ∧ indexed s'.
Proof.
  induction ops as [|o ops IH]; intros s Hv Hx Hnew; simpl; [eauto|].
  simpl in Hnew. apply andb_true_iff in Hnew as [Hn1 Hn2].
  destruct (run_op_map_valid o s Hv) as (v & s1 & E & Hv1).
  rewrite E in Hn2 |- *. simpl in *.
  apply IH; auto. apply (run_op_indexed o s v s1); auto.
  destruct o; auto. by apply bool_decide_eq_true in Hn1.
Qed.

Lemma adds_new_ids_take ops : ∀ n s,
  adds_new_ids ops s = true → adds_new_ids (take n ops) s = true.
Proof.
  induction ops as [|o ops IH]; intros [|n] s H; simpl in *; auto.
  apply andb_true_iff in H as [H1 H2]. rewrite H1. simpl.
  destruct (run_op o s) as [p| |]; auto.
Qed.

(** The keys of a valid position map over an indexed array are the ids in
    the array. *)
Lemma keys_are_ids s :
  map_valid s → indexed s →
  dom (position_map s) = list_to_set (id_of s <$> heap s).
Proof.
  intros Hv Hx. apply set_eq. intros pid.
  rewrite elem_of_dom, elem_of_list_to_set, list_elem_of_fmap. split.
  - intros [k Hk]. destruct (Hv _ _ Hk) as (r & Hr & Hid).
    exists r. split; [done|]. by eapply list_elem_of_lookup_2.
  - intros (r & -> & Hr). apply list_elem_of_lookup in Hr as [k Hk].
    exists k. by apply Hx.
Qed.

(** ** The root of a heap *)

(** The root of a heap holds the largest priority. *)
Lemma root_max s : heap_ordered s →
  ∀ k, k < length (heap s) → (sc s k ≤ sc s 0)%Z.
Proof.
  intros Ho k. induction k as [k IH] using lt_wf_ind. intros Hk.
  destruct (decide (k = 0)) as [->|Hne]; [lia|].
  pose proof (parent_lt k ltac:(lia)) as Hp.
  pose proof (Ho k ltac:(lia)). pose proof (IH (_parent k) Hp ltac:(lia)). lia.
Qed.

Lemma heap_orderedb_true s : heap_orderedb s = true → heap_ordered s.
Proof.
  unfold heap_orderedb. rewrite forallb_forall. intros H i Hi.
  apply Z.leb_le, H, in_seq. lia.
Qed.

(** ** The states of the examples *)

Lemma dealt_run : run (take 4 scenario) (init table) = Ok dealt.
Proof. vm_compute. reflexivity. Qed.

Lemma dealt_map_valid : map_valid dealt.
Proof.
  destruct (run_map_valid (take 4 scenario) (init table) (init_map_valid table))
    as (s & E & Hv).
  rewrite dealt_run in E. by injection E as <-.
Qed.

Lemma dealt_ordered : heap_ordered dealt.
Proof. apply heap_orderedb_true. vm_compute. reflexivity. Qed.

Lemma dealt_NoDup : NoDup (heap dealt).
Proof. compute_done. Qed.

Lemma one_twin_run : run [AddPlayer 0] (init twins) = Ok one_twin.
Proof. vm_compute. reflexivity. Qed.

Lemma one_twin_map_valid : map_valid one_twin.
Proof.
  destruct (run_map_valid [AddPlayer 0] (init twins) (init_map_valid twins))
    as (s & E & Hv).
  rewrite one_twin_run in E. by injection E as <-.
Qed.

(** ** The spec's concrete scenario *)

(** Insert (1,100), (2,500), (3,300), (4,200): the winner is 2; after
    [update_hand_strength(1, 850)] it is 1; [fold_player(4)] leaves three
    players; after [update_hand_strength(3, 900)] and then [(3, 1200)] the
    winner is 3, with priority 1200. *)
Example scenario_winners :
  ∃ s4 s5 s6 s7 s8,
    run (take 4 scenario) (init table) = Ok s4 ∧ id_of s4 <$> head (heap s4) = Some 2%Z ∧
    run (take 5 scenario) (init table) = Ok s5 ∧ id_of s5 <$> head (heap s5) = Some 1%Z ∧
    run (take 6 scenario) (init table) = Ok s6 ∧ length (heap s6) = 3 ∧
    run (take 7 scenario) (init table) = Ok s7 ∧ id_of s7 <$> head (heap s7) = Some 3%Z ∧
    run (take 8 scenario) (init table) = Ok s8 ∧
    (λ r, (id_of s8 r, score_of s8 r)) <$> head (heap s8) = Some (3%Z, 1200%Z).
Proof.
  eexists _, _, _, _, _.
  repeat (split; [vm_compute; reflexivity|]). vm_compute. reflexivity.
Qed.

(** * The claims *)

(** ** C1: the heap invariant after every call *)

(** C1 as stated fails.  The caller may pass one [Player] object to
    [add_player] twice; [update_hand_strength] then changes the score of both
    slots and sifts only one of them.  After
    [add_player(bob); add_player(alice); add_player(bob);
     update_hand_strength(2, 50)] slot 1 (Alice, 100) is above its parent, the
    root (Bob, 50). *)
Lemma shared_object_breaks_heap_order :
  ∃ s,
    run [AddPlayer 1; AddPlayer 0; AddPlayer 1; UpdateHandStrength 2 50]
        (init table) = Ok s ∧
    heap s = [1; 0; 1] ∧
    sc s 1 = 100%Z ∧ sc s (_parent 1) = 50%Z ∧
    ¬ heap_ordered s.
Proof.
  eexists. split; [vm_compute; reflexivity|].
  split; [reflexivity|]. split; [reflexivity|]. split; [reflexivity|].
  intros H. specialize (H 1). simpl in H.
  assert (0 < 1 < 3) as Hb by lia. specialize (H Hb). vm_compute in H. by apply H.
Qed.

(** C1, amended: from the empty structure, a sequence of public calls in
    which no [add_player] is passed an object the array already holds runs to
    the end, and after each of its calls every non-root slot [i] has
    [priority(parent(i)) >= priority(i)]. *)
Theorem heap_order_after_every_call objs ops :
  adds_new_objects ops (init objs) = true →
  ∀ n, ∃ s, run (take n ops) (init objs) = Ok s ∧ heap_ordered s.
Proof.
  intros Hnew n.
  destruct (run_ordered (take n ops) (init objs)) as (s & E & _ & _ & Ho);
    eauto using adds_new_objects_take with heap.
Qed.

Lemma heap_order_after_every_call_witness :
  adds_new_objects scenario (init table) = true ∧
  ∃ s, run (take 6 scenario) (init table) = Ok s ∧ heap_ordered s.
Proof.
  split; [vm_compute; reflexivity|].
  apply (heap_order_after_every_call table scenario); vm_compute; reflexivity.
Defined.

(** ** C2: the position map and the array *)

(** C2 as stated fails.  [add_player] does not look the id up: after two
    players with the id 7 are added the array has two slots and the map one
    key, and slot 1 holds a player whose id is mapped to slot 0. *)
Lemma duplicate_id_breaks_bijection :
  ∃ s,
    run [AddPlayer 0; AddPlayer 1] (init twins) = Ok s ∧
    heap s = [1; 0] ∧
    map_to_list (position_map s) = [(7%Z, 0)] ∧
    position_map s !! id_of s 0 = Some 0 ∧
    ¬ indexed s.
Proof.
  eexists. split; [vm_compute; reflexivity|].
  split; [reflexivity|]. split; [reflexivity|]. split; [reflexivity|].
  intros H. specialize (H 1 0 eq_refl). vm_compute in H. discriminate.
Qed.

(** C2, amended: from the empty structure, a sequence of public calls in
    which no [add_player] is passed an id that is already a key of the
    position map runs to the end, and after each of its calls
    [position_map[heap[i].player_id] == i] for every valid [i], every entry
    of the map points at a slot that holds its id, the keys of the map are the
    ids in the array, and no id occurs twice in the array. *)
Theorem position_map_bijection objs ops :
  adds_new_ids ops (init objs) = true →
  ∀ n, ∃ s, run (take n ops) (init objs) = Ok s ∧
    indexed s ∧ map_valid s ∧
    dom (position_map s) =@{gset Z} list_to_set (id_of s <$> heap s) ∧
    NoDup (id_of s <$> heap s).
Proof.
  intros Hnew n.
  destruct (run_indexed (take n ops) (init objs)) as (s & E & Hv & Hx);
    auto using adds_new_ids_take with heap.
  exists s. split; [done|]. split; [done|]. split; [done|].
  split; [by apply keys_are_ids|by apply indexed_NoDup_ids].
Qed.

Lemma position_map_bijection_witness :
  adds_new_ids scenario (init table) = true ∧
  ∃ s, run (take 6 scenario) (init table) = Ok s ∧
    indexed s ∧ map_valid s ∧
    dom (position_map s) =@{gset Z} list_to_set (id_of s <$> heap s) ∧
    NoDup (id_of s <$> heap s).
Proof.
  split; [vm_compute; reflexivity|].
  apply (position_map_bijection table scenario); vm_compute; reflexivity.
Defined.

(** ** C3: duplicate and unknown ids *)

(** C3 as stated fails.  With one player of id 7 in, [add_player] of a second
    player of id 7 returns [None] and has appended it; [fold_player] and
    [update_hand_strength] of the unknown id 9 return [None], which is what
    [fold_player] of the known id 7 returns too. *)
Lemma duplicate_and_unknown_ids_return_None :
  ∃ s0 s1 s2,
    run [AddPlayer 0] (init twins) = Ok s0 ∧
    position_map s0 !! id_of s0 1 = Some 0 ∧
    add_player 1 s0 = Ok (RNone, s1) ∧ heap s1 = [1; 0] ∧
    position_map s0 !! 9%Z = None ∧
    fold_player 9 s0 = Ok (RNone, s0) ∧
    update_hand_strength 9 5 s0 = Ok (RNone, s0) ∧
    fold_player 7 s0 = Ok (RNone, s2) ∧ heap s2 = [].
Proof.
  eexists _, _, _. split; [vm_compute; reflexivity|].
  split; [reflexivity|]. split; [vm_compute; reflexivity|].
  split; [reflexivity|]. split; [reflexivity|].
  split; [reflexivity|]. split; [reflexivity|].
  split; [vm_compute; reflexivity|]. reflexivity.
Qed.

(** C3, amended: no call reports an error.  [add_player], whatever id the
    player carries, appends the player and returns [None]; [fold_player] and
    [update_hand_strength] called with an id that is not a key of the position
    map return [None] and leave the state as it was; and on a state whose
    position map is valid they return [None] for every id, known or not. *)
Theorem calls_return_None s :
  (∀ r, ∃ s', add_player r s = Ok (RNone, s') ∧ heap s' ≡ₚ heap s ++ [r]) ∧
  (∀ pid v, position_map s !! pid = None →
     fold_player pid s = Ok (RNone, s) ∧
     update_hand_strength pid v s = Ok (RNone, s)) ∧
  (map_valid s → ∀ pid v, ∃ s1 s2,
     fold_player pid s = Ok (RNone, s1) ∧
     update_hand_strength pid v s = Ok (RNone, s2)).
Proof.
  split; [|split].
  - intros r. destruct (add_player_total r s) as [s' E]. exists s'.
    split; [done|]. by destruct (add_player_content _ _ _ _ E).
  - intros pid v H. split.
    + by apply fold_player_absent.
    + by apply update_hand_strength_absent.
  - intros Hv pid v. destruct (position_map s !! pid) as [index|] eqn:Hm.
    + destruct (fold_player_spec _ _ _ Hv Hm) as (r & s1 & _ & _ & E1 & _).
      destruct (update_hand_strength_spec _ v _ _ Hv Hm) as (r' & s2 & _ & _ & E2 & _).
      eauto.
    + rewrite fold_player_absent, update_hand_strength_absent by done. eauto.
Qed.

Lemma calls_return_None_witness :
  position_map dealt !! 9%Z = None ∧ map_valid dealt ∧
  fold_player 9 dealt = Ok (RNone, dealt) ∧
  ∃ s1, fold_player 4 dealt = Ok (RNone, s1).
Proof.
  destruct (calls_return_None dealt) as (_ & Habsent & Hany).
  split; [reflexivity|]. split; [apply dealt_map_valid|].
  split; [apply (Habsent 9%Z 0%Z); reflexivity|].
  destruct (Hany dealt_map_valid 4%Z 0%Z) as (s1 & _ & E & _). eauto.
Defined.

(** ** C4: [get_winner] *)

(** C4 as stated fails.  The root is the maximum only where the heap
    invariant holds, and the public calls reach states where it does not
    (C1): after [add_player(bob); add_player(alice); add_player(bob);
    update_hand_strength(2, 50)] the root is Bob, whose score is now 50, and
    [get_winner] returns him while Alice, with score 100, is in the array. *)
Lemma get_winner_below_max :
  ∃ s,
    run [AddPlayer 1; AddPlayer 0; AddPlayer 1; UpdateHandStrength 2 50]
        (init table) = Ok s ∧
    get_winner s = Ok (RPlayer 1, s) ∧ score_of s 1 = 50%Z ∧
    0 ∈ heap s ∧ score_of s 0 = 100%Z.
Proof.
  eexists. split; [vm_compute; reflexivity|].
  split; [reflexivity|]. split; [reflexivity|].
  split; [|reflexivity]. apply list_elem_of_lookup. by exists 1.
Qed.

(** C4, amended: in every state [get_winner] returns and leaves the state as
    it is, with [None] on an empty array and the root on a non-empty one; and
    after each call of a sequence of public calls from the empty structure in
    which no [add_player] is passed an object the array already holds, the
    player [get_winner] returns has a priority >= that of every player in the
    array. *)
Theorem get_winner_root :
  (∀ s, (∃ v, get_winner s = Ok (v, s)) ∧
        (heap s = [] → get_winner s = Ok (RNone, s)) ∧
        (∀ r, heap s !! 0 = Some r → get_winner s = Ok (RPlayer r, s))) ∧
  (∀ objs ops,
     adds_new_objects ops (init objs) = true →
     ∀ n, ∃ s, run (take n ops) (init objs) = Ok s ∧
       ∀ r, get_winner s = Ok (RPlayer r, s) →
         ∀ r', r' ∈ heap s → (score_of s r' ≤ score_of s r)%Z).
Proof.
  split.
  - intros s. split; [|split].
    + unfold get_winner. eauto.
    + intros H. unfold get_winner. by rewrite H.
    + intros r Hr. unfold get_winner. destruct (heap s); [done|].
      by injection Hr as ->.
  - intros objs ops Hnew n.
    destruct (run_ordered (take n ops) (init objs)) as (s & E & _ & _ & Ho);
      eauto using adds_new_objects_take with heap.
    exists s. split; [done|]. intros r Hw r' Hr'.
    assert (Hr : heap s !! 0 = Some r).
    { unfold get_winner in Hw. destruct (heap s); [done|]. by injection Hw as ->. }
    apply list_elem_of_lookup in Hr' as [k Hk].
    pose proof (root_max s Ho k (lookup_lt_Some _ _ _ Hk)) as Hle.
    by rewrite (sc_lookup _ _ _ Hk), (sc_lookup _ _ _ Hr) in Hle.
Qed.

Lemma get_winner_root_witness :
  adds_new_objects scenario (init table) = true ∧
  ∃ s, run (take 6 scenario) (init table) = Ok s ∧
       get_winner s = Ok (RPlayer 0, s) ∧
       ∀ r', r' ∈ heap s → (score_of s r' ≤ score_of s 0%nat)%Z.
Proof.
  assert (Hn : adds_new_objects scenario (init table) = true)
    by (vm_compute; reflexivity).
  split; [exact Hn|].
  destruct get_winner_root as [_ H].
  destruct (H table scenario Hn 6) as (s & E & Hmax).
  assert (Hw : get_winner s = Ok (RPlayer 0, s)).
  { vm_compute in E. injection E as <-. reflexivity. }
  exists s. split; [exact E|]. split; [exact Hw|exact (Hmax 0 Hw)].
Defined.

(** ** C5: unknown ids change nothing *)

(** C5: [fold_player] and [update_hand_strength] called with an id that is
    absent from the structure return with the heap array and the position map
    (the whole state) unchanged. *)
Theorem unknown_id_changes_nothing s pid v :
  position_map s !! pid = None →
  (∃ x, fold_player pid s = Ok (x, s)) ∧
  (∃ x, update_hand_strength pid v s = Ok (x, s)).
Proof.
  intros H. rewrite fold_player_absent, update_hand_strength_absent by done. eauto.
Qed.

Lemma unknown_id_changes_nothing_witness :
  position_map dealt !! 9%Z = None ∧
  (∃ x, fold_player 9 dealt = Ok (x, dealt)) ∧
  (∃ x, update_hand_strength 9 1200 dealt = Ok (x, dealt)).
Proof.
  split; [reflexivity|]. apply (unknown_id_changes_nothing dealt 9 1200). reflexivity.
Defined.

(** ** C6: the rebalance of [fold_player] *)

(** C6 as stated fails.  Folding Charlie (slot 2 of 4) puts Alice, the former
    last element, into slot 2, where she is below her parent and has no
    children: neither [_sift_up] nor [_sift_down] moves her. *)
Lemma rebalance_may_move_nothing :
  ∃ s3,
    position_map dealt !! 3%Z = Some 2 ∧ 2 < length (heap dealt) - 1 ∧
    fold_detach 3 2 dealt = Ok s3 ∧ heap s3 = [1; 3; 0] ∧
    _sift_up 2 s3 = Ok s3 ∧ _sift_down 2 s3 = Ok s3 ∧
    fold_player 3 dealt = Ok (RNone, s3).
Proof.
  eexists. split; [reflexivity|]. split; [simpl; lia|].
  split; [vm_compute; reflexivity|]. split; [reflexivity|].
  split; [vm_compute; reflexivity|]. split; vm_compute; reflexivity.
Qed.

(** C6, amended: in [fold_player], when the removed slot is not the last slot
    of a structure that satisfies the heap invariant, the survivor is put in
    that slot and [_sift_up] then [_sift_down] are run there; at most one of
    the two changes the state: either [_sift_up] leaves it as it is, or
    [_sift_down] does. *)
Theorem rebalance_moves_one_way s pid index :
  heap_ordered s →
  position_map s !! pid = Some index →
  index < length (heap s) - 1 →
  ∃ s3 s4 s5,
    fold_detach pid index s = Ok s3 ∧
    _sift_up index s3 = Ok s4 ∧
    _sift_down index s4 = Ok s5 ∧
    fold_player pid s = Ok (RNone, s5) ∧
    (s4 = s3 ∨ s5 = s4).
Proof.
  intros Ho Hm Hi.
  destruct (lookup_lt_is_Some_2 (heap s) index) as [r Hr]; [lia|].
  destruct (lookup_lt_is_Some_2 (heap s) (length (heap s) - 1)) as [b Hb]; [lia|].
  set (s3 := detached pid index r b s).
  assert (Hi3 : index < length (heap s3))
    by (unfold s3; rewrite detached_length; lia).
  destruct (sift_up_total index s3 Hi3) as [s4 E4].
  destruct (sift_down_total index s4) as [s5 E5].
  exists s3, s4, s5.
  split. { apply fold_detach_lookup; [done|done|by rewrite Hm]. }
  split; [done|]. split; [done|]. split.
  - rewrite (fold_player_present _ _ _ _ _ Hm Hr Hb), decide_True by done.
    fold s3. by rewrite E4, bind_Ok_l, E5.
  - destruct (sift_up_loop_hole _ _ _ _ Hi3
                (detached_hole pid index r b s Hb Hi Ho) E4) as [[-> _]|Ho4].
    + by left.
    + right. rewrite (sift_down_noop _ _ Ho4) in E5. by injection E5.
Qed.

Lemma rebalance_moves_one_way_witness :
  heap_ordered dealt ∧ position_map dealt !! 2%Z = Some 0 ∧
  0 < length (heap dealt) - 1 ∧
  ∃ s3 s4 s5,
    fold_detach 2 0 dealt = Ok s3 ∧
    _sift_up 0 s3 = Ok s4 ∧
    _sift_down 0 s4 = Ok s5 ∧
    fold_player 2 dealt = Ok (RNone, s5) ∧
    (s4 = s3 ∨ s5 = s4).
Proof.
  assert (Hi : 0 < length (heap dealt) - 1) by (simpl; lia).
  split; [exact dealt_ordered|]. split; [reflexivity|]. split; [exact Hi|].
  exact (rebalance_moves_one_way dealt 2 0 dealt_ordered eq_refl Hi).
Defined.

(** Each direction does move in some fold: with player 3 (priority 5) out,
    player 6 (85) lands under player 1 (10) and is sifted up; with the root
    out, player 6 lands on top and is sifted down. *)
Example rebalance_sift_up_moves :
  ∃ s3 s4,
    fold_detach 3 3 seven = Ok s3 ∧ heap s3 = [0; 1; 2; 6; 4; 5] ∧
    _sift_up 3 s3 = Ok s4 ∧ heap s4 = [0; 6; 2; 1; 4; 5] ∧
    _sift_down 3 s4 = Ok s4 ∧ fold_player 3 seven = Ok (RNone, s4).
Proof.
  eexists _, _. split; [vm_compute; reflexivity|]. split; [reflexivity|].
  split; [vm_compute; reflexivity|]. split; [reflexivity|].
  split; vm_compute; reflexivity.
Qed.

Example rebalance_sift_down_moves :
  ∃ s3 s5,
    fold_detach 0 0 seven = Ok s3 ∧ heap s3 = [6; 1; 2; 3; 4; 5] ∧
    _sift_up 0 s3 = Ok s3 ∧
    _sift_down 0 s3 = Ok s5 ∧ heap s5 = [2; 1; 6; 3; 4; 5] ∧
    fold_player 0 seven = Ok (RNone, s5).
Proof.
  eexists _, _. split; [vm_compute; reflexivity|]. split; [reflexivity|].
  split; [vm_compute; reflexivity|]. split; [vm_compute; reflexivity|].
  split; [reflexivity|]. vm_compute; reflexivity.
Qed.

(** ** C7: sifting one way or both ways *)

Lemma update_both_eq s pid v :
  map_valid s → NoDup (heap s) → heap_ordered s →
  update_priority_both pid v s = update_hand_strength pid v s.
Proof.
  intros Hv Hnd Ho. destruct (position_map s !! pid) as [index|] eqn:Hm.
  - destruct (Hv _ _ Hm) as (r & Hr & _).
    pose proof (lookup_lt_Some _ _ _ Hr) as Hi.
    rewrite (update_hand_strength_present _ _ _ _ _ Hm Hr).
    unfold update_priority_both. rewrite Hm, (heap_at_lookup _ _ _ Hr), bind_Ok_l.
    set (s1 := set_hand_score r v s).
    case_decide as Hc.
    + destruct (sift_up_total index s1 Hi) as [s2 E]. rewrite E, !bind_Ok_l.
      assert (heap_ordered s2) as Ho2.
      { apply (sift_up_ordered index s1 s2 Hi); [|exact E]. by apply raised_up. }
      by rewrite (sift_down_noop _ _ Ho2).
    + rewrite (sift_up_noop index s1 Hi); [by rewrite bind_Ok_l|].
      intros H0. pose proof (parent_lt index H0).
      unfold s1. rewrite !(set_hand_score_sc index) by done.
      rewrite decide_True by done. rewrite decide_False by lia.
      pose proof (Ho index ltac:(lia)). lia.
  - unfold update_priority_both. rewrite Hm.
    by rewrite update_hand_strength_absent.
Qed.

Lemma run_both_eq ops : ∀ s,
  map_valid s → NoDup (heap s) → heap_ordered s →
  adds_new_objects ops s = true →
  run_both ops s = run ops s.
Proof.
  induction ops as [|o ops IH]; intros s Hv Hnd Ho Hnew; simpl; [done|].
  simpl in Hnew. apply andb_true_iff in Hnew as [Hn1 Hn2].
  assert (run_op_both o s = run_op o s) as ->.
  { destruct o; simpl; auto. by apply update_both_eq. }
  destruct (run_op_map_valid o s Hv) as (v & s1 & E & Hv1).
  rewrite E in Hn2 |- *. simpl in *.
  destruct (run_op_ordered o s v s1 Hv Hnd Ho) as [Hnd1 Ho1]; auto.
  destruct o; auto. by apply bool_decide_eq_true in Hn1.
Qed.

(** C7 as stated fails.  Once Bob sits in two slots and his score is
    lowered, the array is no heap; lowering Alice's score, 100 to 70, then
    leaves her in place in [update_hand_strength], which only sifts down,
    and takes her to the root in the version that sifts both ways.  The two
    differ on that state and id, and on the whole sequence of calls. *)
Lemma shared_object_separates_updates :
  ∃ s s1 s2,
    run [AddPlayer 1; AddPlayer 0; AddPlayer 1; UpdateHandStrength 2 50]
        (init table) = Ok s ∧
    position_map s !! 1%Z = Some 1 ∧
    update_hand_strength 1 70 s = Ok (RNone, s1) ∧ heap s1 = [1; 0; 1] ∧
    update_priority_both 1 70 s = Ok (RNone, s2) ∧ heap s2 = [0; 1; 1] ∧
    run [AddPlayer 1; AddPlayer 0; AddPlayer 1; UpdateHandStrength 2 50;
         UpdateHandStrength 1 70] (init table) = Ok s1 ∧
    run_both [AddPlayer 1; AddPlayer 0; AddPlayer 1; UpdateHandStrength 2 50;
              UpdateHandStrength 1 70] (init table) = Ok s2.
Proof.
  eexists _, _, _. split; [vm_compute; reflexivity|].
  split; [reflexivity|].
  split; [vm_compute; reflexivity|]. split; [reflexivity|].
  split; [vm_compute; reflexivity|]. split; [reflexivity|].
  split; vm_compute; reflexivity.
Qed.

(** C7, amended: in every state that satisfies the structure's invariants
    (heap order, a valid position map, each object in one slot), for every id
    and new priority, [update_hand_strength] (sift up if the new priority is
    strictly greater, else sift down) ends in the same state, array and map,
    as overwriting the priority and running sift-up then sift-down
    unconditionally; and so do whole sequences of calls from the empty
    structure in which no [add_player] is passed an object the array already
    holds. *)
Theorem directional_update_equivalent :
  (∀ s pid v,
     map_valid s → NoDup (heap s) → heap_ordered s →
     update_priority_both pid v s = update_hand_strength pid v s) ∧
  (∀ objs ops,
     adds_new_objects ops (init objs) = true →
     run_both ops (init objs) = run ops (init objs)).
Proof.
  split; [exact update_both_eq|].
  intros objs ops H. apply run_both_eq; auto with heap.
Qed.

Lemma directional_update_equivalent_witness :
  map_valid dealt ∧ NoDup (heap dealt) ∧ heap_ordered dealt ∧
  update_priority_both 1 850 dealt = update_hand_strength 1 850 dealt ∧
  adds_new_objects scenario (init table) = true ∧
  run_both scenario (init table) = run scenario (init table).
Proof.
  destruct directional_update_equivalent as [H1 H2].
  assert (Hn : adds_new_objects scenario (init table) = true) by (vm_compute; reflexivity).
  split; [exact dealt_map_valid|]. split; [exact dealt_NoDup|].
  split; [exact dealt_ordered|].
  split; [exact (H1 dealt 1%Z 850%Z dealt_map_valid dealt_NoDup dealt_ordered)|].
  split; [exact Hn|exact (H2 table scenario Hn)].
Defined.

(** ** C8: the round trip *)

Lemma run_adds rs : ∀ s,
  map_valid s → indexed s → heap_ordered s →
  NoDup (id_of s <$> (heap s ++ rs)) →
  ∃ s', run (AddPlayer <$> rs) s = Ok s' ∧
    map_valid s' ∧ indexed s' ∧ heap_ordered s' ∧
    heap s' ≡ₚ heap s ++ rs ∧ objects s' = objects s.
Proof.
  induction rs as [|r rs IH]; intros s Hv Hx Ho Hnd; simpl.
  - exists s. rewrite app_nil_r. auto 10.
  - destruct (add_player_total r s) as [s1 E]. rewrite E, bind_Ok_l. simpl.
    pose proof (add_player_content _ _ _ _ E) as [Hobj Hp].
    assert (Hnew : position_map s !! id_of s r = None).
    { apply not_elem_of_dom. rewrite (keys_are_ids s Hv Hx).
      rewrite elem_of_list_to_set. rewrite fmap_app in Hnd.
      apply NoDup_app in Hnd as (_ & Hnd & _). intros Hin.
      apply (Hnd _ Hin). simpl. left. }
    assert (Hids : id_of s1 = id_of s) by (unfold id_of; by rewrite Hobj).
    destruct (IH s1) as (s' & E' & Hv' & Hx' & Ho' & Hp' & Hobj').
    + by eapply add_player_map_valid.
    + by eapply add_player_indexed.
    + by eapply add_player_ordered.
    + rewrite Hids, Hp, <- app_assoc. exact Hnd.
    + exists s'. split; [done|]. split; [done|]. split; [done|]. split; [done|].
      split; [|congruence]. by rewrite Hp', Hp, <- app_assoc.
Qed.

Lemma drain_sorted n : ∀ s,
  map_valid s → indexed s → heap_ordered s →
  NoDup (score_of s <$> heap s) → length (heap s) ≤ n →
  ∃ out s', drain n s = Ok (out, s') ∧
    out ≡ₚ heap s ∧ heap s' = [] ∧ objects s' = objects s ∧
    StronglySorted (λ a b, (score_of s b < score_of s a)%Z) out.
Proof.
  induction n as [|n IH]; intros s Hv Hx Ho Hnd Hlen; simpl.
  - destruct (heap s) eqn:Hh; [|simpl in Hlen; lia].
    exists [], s. repeat split; auto. constructor.
  - destruct (heap s) as [|r t] eqn:Hh.
    { exists [], s. repeat split; auto. constructor. }
    assert (Hr : heap s !! 0 = Some r) by (by rewrite Hh).
    pose proof (Hx _ _ Hr) as Hm.
    destruct (fold_player_spec _ _ _ Hv Hm)
      as (r0 & s1 & Hr0 & _ & E & Hobj & Hp & Hv1 & Hx1 & Ho1).
    assert (r0 = r) as -> by congruence.
    rewrite E, bind_Ok_l. simpl.
    assert (Hsc : score_of s1 = score_of s) by (unfold score_of; by rewrite Hobj).
    assert (Hnd' : NoDup (score_of s <$> (heap s1 ++ [r]))) by (by rewrite Hp, Hh).
    rewrite fmap_app in Hnd'. apply NoDup_app in Hnd' as (Hnd1 & Hfresh & _).
    destruct (IH s1) as (out & s' & E' & Hpo & Hemp & Hobj' & Hs); auto.
    + by rewrite Hsc.
    + assert (length (heap s1 ++ [r]) = length (heap s)) as Hl by (by rewrite Hp).
      rewrite length_app, Hh in Hl. simpl in *. lia.
    + rewrite E', bind_Ok_l. simpl. exists (r :: out), s'.
      split; [done|]. split.
      { rewrite <- Hh, <- Hp, Hpo. apply Permutation_cons_append. }
      split; [done|]. split; [congruence|].
      apply StronglySorted_cons. split; [|by rewrite <- Hsc].
      apply Forall_forall. intros b Hb. rewrite Hpo in Hb.
      assert (Hbs : b ∈ heap s) by (rewrite <- Hp; apply elem_of_app; by left).
      apply list_elem_of_lookup in Hbs as [k Hk].
      pose proof (root_max s Ho k (lookup_lt_Some _ _ _ Hk)) as Hle.
      rewrite (sc_lookup _ _ _ Hk), (sc_lookup _ _ _ Hr) in Hle.
      assert (score_of s b ≠ score_of s r); [|lia].
      intros Heq. apply (Hfresh (score_of s b)).
      * apply list_elem_of_fmap. eauto.
      * rewrite Heq. simpl. left.
Qed.

(** After the loop has folded the id 7 once, the first twin is alone in the
    array with no key: every further round reads it as the winner and folds
    nothing. *)
Lemma drain_stuck m :
  drain m {| objects := twins; heap := [0]; position_map := ∅ |} =
    Ok (repeat 0 m, {| objects := twins; heap := [0]; position_map := ∅ |}).
Proof.
  induction m as [|m IH]; [reflexivity|].
  change (drain (S m) {| objects := twins; heap := [0]; position_map := ∅ |})
    with (rest ← drain m {| objects := twins; heap := [0]; position_map := ∅ |};
          Ok (0 :: rest.1, rest.2)).
  by rewrite IH.
Qed.

(** C8 as stated fails.  Distinct priorities do not make the ids distinct,
    and [add_player] takes any id: with the id 7 on two players of scores 0
    and 10, the loop reads the second twin, folds the id 7, and from then on
    reads the first twin in every round, whose id is no key any more: the
    array is never emptied and the output is not strictly descending. *)
Lemma round_trip_needs_distinct_ids :
  NoDup (hand_score ∘ twins <$> [0; 1]) ∧
  ∃ s s',
    run (AddPlayer <$> [0; 1]) (init twins) = Ok s ∧
    drain 3 s = Ok ([1; 0; 0], s') ∧ heap s' = [0] ∧
    (∀ m, drain (S m) s = Ok (1 :: repeat 0 m, s')).
Proof.
  split; [compute_done|].
  exists {| objects := twins; heap := [1; 0]; position_map := {[ 7%Z := 0 ]} |},
         {| objects := twins; heap := [0]; position_map := ∅ |}.
  split; [vm_compute; reflexivity|].
  assert (Hm : ∀ m,
    drain (S m) {| objects := twins; heap := [1; 0]; position_map := {[ 7%Z := 0 ]} |}
    = Ok (1 :: repeat 0 m, {| objects := twins; heap := [0]; position_map := ∅ |})).
  { intros m.
    change (drain (S m) {| objects := twins; heap := [1; 0];
                           position_map := {[ 7%Z := 0 ]} |})
      with (q ← fold_player 7 {| objects := twins; heap := [1; 0];
                                 position_map := {[ 7%Z := 0 ]} |};
            rest ← drain m q.2; Ok (1 :: rest.1, rest.2)).
    assert (fold_player 7 {| objects := twins; heap := [1; 0];
                             position_map := {[ 7%Z := 0 ]} |}
            = Ok (RNone, {| objects := twins; heap := [0]; position_map := ∅ |}))
      as -> by (vm_compute; reflexivity).
    rewrite bind_Ok_l. cbn [snd]. by rewrite drain_stuck. }
  split; [exact (Hm 2)|]. split; [reflexivity|exact Hm].
Qed.

(** C8, amended: [n] players with pairwise distinct ids and pairwise distinct
    priorities are added to an empty structure; then reading the winner and
    folding its id, repeated until the structure is empty, yields exactly
    those [n] players, in strictly descending order of priority. *)
Theorem round_trip_descending objs rs m :
  NoDup (player_id ∘ objs <$> rs) →
  NoDup (hand_score ∘ objs <$> rs) →
  length rs ≤ m →
  ∃ s out s',
    run (AddPlayer <$> rs) (init objs) = Ok s ∧
    drain m s = Ok (out, s') ∧
    out ≡ₚ rs ∧ heap s' = [] ∧
    StronglySorted (λ a b, (hand_score (objs b) < hand_score (objs a))%Z) out.
Proof.
  intros Hids Hscores Hm.
  destruct (run_adds rs (init objs)) as (s & E & Hv & Hx & Ho & Hp & Hobj);
    auto with heap.
  - simpl in Hp, Hobj.
    assert (Hsc : score_of s = hand_score ∘ objs).
    { unfold score_of. by rewrite Hobj. }
    destruct (drain_sorted m s Hv Hx Ho) as (out & s' & E' & Hpo & Hemp & _ & Hs).
    + by rewrite Hsc, Hp.
    + by rewrite Hp.
    + exists s, out, s'. split; [done|]. split; [done|].
      split; [by rewrite Hpo|]. split; [done|]. by rewrite Hsc in Hs.
Qed.

Lemma round_trip_descending_witness :
  NoDup (player_id ∘ table <$> [0; 1; 2; 3]) ∧
  NoDup (hand_score ∘ table <$> [0; 1; 2; 3]) ∧
  ∃ s out s',
    run (AddPlayer <$> [0; 1; 2; 3]) (init table) = Ok s ∧
    drain 4 s = Ok (out, s') ∧
    out ≡ₚ [0; 1; 2; 3] ∧ heap s' = [] ∧
    StronglySorted (λ a b, (hand_score (table b) < hand_score (table a))%Z) out.
Proof.
  assert (H1 : NoDup (player_id ∘ table <$> [0; 1; 2; 3])) by compute_done.
  assert (H2 : NoDup (hand_score ∘ table <$> [0; 1; 2; 3])) by compute_done.
  split; [exact H1|]. split; [exact H2|].
  apply (round_trip_descending table [0; 1; 2; 3] 4 H1 H2). simpl. lia.
Defined.

Example round_trip_table :
  ∃ s s', run (AddPlayer <$> [0; 1; 2; 3]) (init table) = Ok s ∧
          drain 4 s = Ok ([1; 2; 3; 0], s').
Proof. eexists _, _. split; vm_compute; reflexivity. Qed.

(** ** C9: every call completes *)

Lemma heap_at_fuel s i : heap_at s i ≠ OutOfFuel.
Proof. unfold heap_at. by destruct (heap s !! i). Qed.

Lemma score_at_fuel s i : score_at s i ≠ OutOfFuel.
Proof. unfold score_at. apply bind_fuel; [apply heap_at_fuel|done]. Qed.

(** The loop of [_sift_up] started at [i] tests its condition at most [i + 1]
    times, in any state. *)
Lemma sift_up_loop_fuel fuel : ∀ i s, i < fuel → sift_up_loop fuel i s ≠ OutOfFuel.
Proof.
  induction fuel as [|fuel IH]; intros i s Hf; [lia|].
  simpl. destruct (0 <? i) eqn:H0; [|done].
  apply Nat.ltb_lt in H0. pose proof (parent_lt i H0).
  apply bind_fuel; [apply score_at_fuel|]. intros a.
  apply bind_fuel; [apply score_at_fuel|]. intros b.
  destruct (b <? a)%Z; [|done].
  apply bind_fuel; [apply swap_not_out_of_fuel|]. intros s'. apply IH. lia.
Qed.

Lemma sift_up_fuel i s : _sift_up i s ≠ OutOfFuel.
Proof. apply sift_up_loop_fuel. lia. Qed.

Lemma sift_down_fuel i s : _sift_down i s ≠ OutOfFuel.
Proof. destruct (sift_down_total i s) as [s' E]. by rewrite E. Qed.

Lemma fold_detach_fuel pid index s : fold_detach pid index s ≠ OutOfFuel.
Proof.
  unfold fold_detach. apply bind_fuel; [apply swap_not_out_of_fuel|]. intros s1.
  apply bind_fuel.
  - unfold heap_pop. by destruct (heap s1).
  - intros s2. unfold position_map_del. by destruct (position_map s2 !! pid).
Qed.

Lemma run_op_fuel o s : run_op o s ≠ OutOfFuel.
Proof.
  destruct o as [r| |pid|pid v]; simpl.
  - destruct (add_player_total r s) as [s' E]. by rewrite E.
  - done.
  - unfold fold_player. destruct (position_map s !! pid) as [index|]; [|done].
    apply bind_fuel; [apply heap_at_fuel|]. intros _.
    apply bind_fuel; [apply fold_detach_fuel|]. intros s3.
    destruct (index <? length (heap s3)); [|done].
    apply bind_fuel; [apply sift_up_fuel|]. intros s4.
    apply bind_fuel; [apply sift_down_fuel|]. done.
  - unfold update_hand_strength. destruct (position_map s !! pid) as [index|]; [|done].
    apply bind_fuel; [apply score_at_fuel|]. intros old.
    apply bind_fuel; [apply heap_at_fuel|]. intros r.
    apply bind_fuel; [apply heap_at_fuel|]. intros _.
    apply bind_fuel; [|done].
    destruct (old <? v)%Z; [apply sift_up_fuel|apply sift_down_fuel].
Qed.

(** A larger budget changes nothing: the loop of [_sift_up] and the
    recursion of [_sift_down] give the result of the methods under any budget
    above the bound. *)
Lemma sift_up_loop_budget fuel : ∀ fuel' i s,
  i < fuel → i < fuel' → sift_up_loop fuel i s = sift_up_loop fuel' i s.
Proof.
  induction fuel as [|fuel IH]; intros [|fuel'] i s Hf Hf'; try lia.
  simpl. destruct (0 <? i) eqn:H0; [|done].
  apply Nat.ltb_lt in H0. pose proof (parent_lt i H0).
  destruct (score_at s i) as [a| |]; simpl; try done.
  destruct (score_at s (_parent i)) as [b| |]; simpl; try done.
  destruct (b <? a)%Z; [|done].
  destruct (_swap i (_parent i) s) as [s1| |]; simpl; try done.
  apply IH; lia.
Qed.

Lemma sift_down_rec_budget fuel : ∀ fuel' i s,
  length (heap s) - i < fuel → length (heap s) - i < fuel' →
  sift_down_rec fuel i s = sift_down_rec fuel' i s.
Proof.
  induction fuel as [|fuel IH]; intros [|fuel'] i s Hf Hf'; try lia.
  rewrite !sift_down_rec_step. case_decide as Hc; [done|].
  destruct (max_child_cases i s) as [|(Hm & _ & _)]; [done|].
  destruct (_swap i (max_child i s) s) as [s1| |] eqn:E; simpl; try done.
  apply swap_Ok in E as (a & b & _ & _ & ->).
  apply IH; rewrite swapped_length; lia.
Qed.

(** C9: every public call completes, on every state and argument (the model's
    recursion budget is never exhausted, and a larger one gives the same
    result); on a state whose position map is valid, and so from the empty
    structure along every sequence of calls, it returns without an exception.
    [_sift_down] returns for every starting index and state: it recurses only
    into [max_idx], which is then a child of [i] inside the array, so the
    index strictly increases below the array's length. *)
Theorem every_call_completes :
  (∀ o s, run_op o s ≠ OutOfFuel) ∧
  (∀ o s, map_valid s → ∃ v s', run_op o s = Ok (v, s') ∧ map_valid s') ∧
  (∀ objs ops, ∃ s, run ops (init objs) = Ok s) ∧
  (∀ i s, ∃ s', _sift_down i s = Ok s') ∧
  (∀ fuel i s,
     sift_down_rec (S fuel) i s =
       if decide (max_child i s = i) then Ok s
       else s' ← _swap i (max_child i s) s;
            sift_down_rec fuel (max_child i s) s') ∧
  (∀ i s, max_child i s ≠ i → i < max_child i s < length (heap s)) ∧
  (∀ fuel i s, i < fuel → sift_up_loop fuel i s = _sift_up i s) ∧
  (∀ fuel i s, length (heap s) < fuel → sift_down_rec fuel i s = _sift_down i s).
Proof.
  split; [exact run_op_fuel|]. split; [exact run_op_map_valid|].
  split; [|split; [|split; [|split; [|split]]]].
  - intros objs ops.
    destruct (run_map_valid ops (init objs) (init_map_valid objs)) as (s & E & _).
    eauto.
  - exact sift_down_total.
  - exact sift_down_rec_step.
  - intros i s Hne. destruct (max_child_cases i s) as [|(H & _)]; [done|exact H].
  - intros fuel i s Hf. apply sift_up_loop_budget; lia.
  - intros fuel i s Hf. apply sift_down_rec_budget; lia.
Qed.

(** ** C10: adding an id that is already there *)

(** The loop of [_sift_up] started at the slot of [r], with [r]'s id mapped to
    that slot, ends with [r]'s id mapped to the slot [r] has reached. *)
Lemma sift_up_loop_tracks r fuel : ∀ i s s',
  heap s !! i = Some r → position_map s !! id_of s r = Some i →
  sift_up_loop fuel i s = Ok s' →
  ∃ i', i' ≤ i ∧ heap s' !! i' = Some r ∧ position_map s' !! id_of s r = Some i'.
Proof.
  induction fuel as [|fuel IH]; intros i s s' Hr Hm H; [discriminate|].
  rewrite sift_up_loop_step in H by (by eapply lookup_lt_Some).
  case_decide as Hc.
  - destruct Hc as [H0 _]. bind_inv H.
    apply swap_Ok in E as (a & b & Ha & Hb & ->).
    assert (a = r) as -> by congruence.
    pose proof (parent_lt i H0).
    destruct (IH (_parent i) (swapped i (_parent i) r b s) s')
      as (i' & Hle & Hr' & Hm'); [| |exact H|].
    + rewrite (swapped_lookup _ _ _ _ _ Ha Hb). by rewrite decide_True.
    + simpl. unfold id_of. simpl. by rewrite lookup_insert_eq.
    + exists i'. split; [lia|]. split; [done|]. exact Hm'.
  - injection H as <-. eauto.
Qed.

(** Where two copies of [x] are known, one of them is away from slot [k]. *)
Lemma other_occurrence (l l0 : list ref) (r old : ref) k :
  l ≡ₚ l0 ++ [r] → old ∈ l0 → l !! k = Some r →
  ∃ j, j ≠ k ∧ l !! j = Some old.
Proof.
  intros Hp Hold Hk.
  rewrite <- (take_drop_middle _ _ _ Hk) in Hp.
  rewrite <- Permutation_cons_append in Hp. symmetry in Hp.
  apply Permutation_cons_app_inv in Hp.
  rewrite Hp in Hold. apply elem_of_app in Hold as [Hin|Hin].
  - apply elem_of_take in Hin as (j & Hj & Hlt). exists j. split; [lia|done].
  - apply list_elem_of_lookup in Hin as [j Hj]. rewrite lookup_drop in Hj.
    exists (S k + j). split; [lia|done].
Qed.

Lemma ancestor_le t : ∀ i, ancestor t i ≤ i.
Proof.
  induction t as [|t IH]; intros i; simpl; [lia|].
  pose proof (IH (_parent i)). unfold _parent in *.
  pose proof (Nat.Div0.div_le_upper_bound (i - 1) 2 i ltac:(lia)). lia.
Qed.

Lemma ancestor_lt t i : 0 < i → ancestor (S t) i < i.
Proof.
  intros H. simpl. pose proof (ancestor_le t (_parent i)).
  pose proof (parent_lt i H). lia.
Qed.

(** The path of [_sift_up]: started at the slot [i] of [r], with [r]'s id
    mapped to [i], the loop takes [r] some [t] steps up.  Each ancestor it
    passes has a strictly smaller priority and ends one step down the path;
    the loop stops at the root or below an ancestor whose priority is not
    smaller; no slot off the path changes; the map entry of [r]'s id
    follows [r]. *)
Lemma sift_up_loop_path r fuel : ∀ i c s',
  heap c !! i = Some r → position_map c !! id_of c r = Some i →
  sift_up_loop fuel i c = Ok s' →
  ∃ t,
    heap s' !! ancestor t i = Some r ∧
    position_map s' !! id_of c r = Some (ancestor t i) ∧
    (∀ u, u < t →
       heap s' !! ancestor u i = heap c !! ancestor (S u) i ∧
       (sc c (ancestor (S u) i) < score_of c r)%Z) ∧
    (ancestor t i = 0 ∨ (score_of c r ≤ sc c (_parent (ancestor t i)))%Z) ∧
    (∀ j, (∀ u, u ≤ t → j ≠ ancestor u i) → heap s' !! j = heap c !! j).
Proof.
  induction fuel as [|fuel IH]; intros i c s' Hr Hm H; [discriminate|].
  rewrite sift_up_loop_step in H by (by eapply lookup_lt_Some).
  case_decide as Hc.
  - destruct Hc as [H0 Hlt]. bind_inv H.
    apply swap_Ok in E as (a & b & Ha & Hb & ->).
    assert (a = r) as -> by congruence.
    pose proof (parent_lt i H0) as Hpi.
    rewrite (sc_lookup _ _ _ Hr) in Hlt.
    set (p := _parent i) in *. set (c' := swapped i p r b c) in *.
    assert (Hl : ∀ k, heap c' !! k =
              if decide (k = p) then Some r
              else if decide (k = i) then Some b else heap c !! k)
      by (intros k; apply (swapped_lookup _ _ _ _ _ Ha Hb)).
    assert (Hs : ∀ k, sc c' k =
              if decide (k = p) then sc c i
              else if decide (k = i) then sc c p else sc c k)
      by (intros k; apply (swapped_sc _ _ _ _ _ Ha Hb)).
    assert (Hsame : ∀ k, k ≠ p → k ≠ i →
              heap c' !! k = heap c !! k ∧ sc c' k = sc c k).
    { intros k Hkp Hki. rewrite Hl, Hs. by rewrite !decide_False by done. }
    destruct (IH p c' s') as (t & Ht & Hmt & Hpass & Hstop & Hoff); [| |exact H|].
    { rewrite Hl. by rewrite decide_True. }
    { simpl. unfold id_of. simpl. by rewrite lookup_insert_eq. }
    change (id_of c' r) with (id_of c r) in Hmt.
    change (score_of c' r) with (score_of c r) in Hpass, Hstop.
    exists (S t). split; [exact Ht|]. split; [exact Hmt|]. split; [|split].
    + intros [|u] Hu.
      * change (heap s' !! i = heap c !! p ∧ (sc c p < score_of c r)%Z).
        split; [|done]. rewrite Hoff.
        -- rewrite Hl. rewrite decide_False by lia. by rewrite decide_True.
        -- intros u' _. pose proof (ancestor_le u' p). lia.
      * destruct (Hpass u ltac:(lia)) as [Hu1 Hu2].
        change (heap s' !! ancestor u p = heap c !! ancestor (S u) p ∧
                (sc c (ancestor (S u) p) < score_of c r)%Z).
        pose proof (ancestor_le (S u) p) as Hle.
        assert (Hne : ancestor (S u) p ≠ p).
        { intros Heq. rewrite Heq, Hs, decide_True in Hu2 by done.
          rewrite (sc_lookup _ _ _ Hr) in Hu2. lia. }
        destruct (Hsame (ancestor (S u) p)) as [E1 E2]; [done|lia|].
        rewrite <- E1, <- E2. done.
    + change (ancestor t p = 0 ∨
              (score_of c r ≤ sc c (_parent (ancestor t p)))%Z).
      destruct Hstop as [Hz|Hs']; [by left|].
      destruct (decide (ancestor t p = 0)) as [Hz|Hnz]; [by left|right].
      pose proof (ancestor_le t p). pose proof (parent_lt (ancestor t p) ltac:(lia)).
      destruct (Hsame (_parent (ancestor t p))) as [_ E2]; [lia|lia|].
      by rewrite <- E2.
    + intros j Hj. rewrite Hoff.
      * pose proof (Hj 0 ltac:(lia)) as Hj0. pose proof (Hj 1 ltac:(lia)) as Hj1.
        simpl in Hj0, Hj1. by destruct (Hsame j).
      * intros u Hu. apply (Hj (S u)). lia.
  - injection H as <-. exists 0. simpl.
    split; [done|]. split; [done|]. split; [intros u Hu; lia|]. split; [|done].
    destruct (decide (i = 0)) as [Hz|Hnz]; [by left|right].
    rewrite <- (sc_lookup _ _ _ Hr).
    destruct (Z_lt_le_dec (sc c (_parent i)) (sc c i)); [|done].
    exfalso. apply Hc. split; [lia|done].
Qed.

(** C10: when [add_player] is passed a player whose id is already a key of
    the position map, the player is still appended and sifted up: from the
    new last slot it goes some [t] steps up, past ancestors of strictly
    smaller priority, each of which ends one step down the path, and stops at
    the root or below an ancestor whose priority is not smaller, and no slot
    off that path changes.  The map entry of the id then points at the slot
    of the new player, the older player of that id is still in the array, in
    another slot that no entry of the map points at, and one
    [fold_player] of the id right after takes out of the array the new
    player's slot only: what is left is what was there before the
    [add_player]. *)
Theorem duplicate_add_keeps_older s r k :
  map_valid s →
  position_map s !! id_of s r = Some k →
  ∃ s1 k1 old j s2 t,
    add_player r s = Ok (RNone, s1) ∧
    _sift_up (length (heap s)) (appended r s) = Ok s1 ∧
    heap s1 ≡ₚ heap s ++ [r] ∧
    position_map s1 !! id_of s r = Some k1 ∧ heap s1 !! k1 = Some r ∧
    heap s !! k = Some old ∧ id_of s old = id_of s r ∧
    j ≠ k1 ∧ heap s1 !! j = Some old ∧
    (∀ pid, position_map s1 !! pid ≠ Some j) ∧
    fold_player (id_of s r) s1 = Ok (RNone, s2) ∧
    heap s2 ≡ₚ heap s ∧ old ∈ heap s2 ∧
    k1 = ancestor t (length (heap s)) ∧
    (∀ u, u < t →
       heap s1 !! ancestor u (length (heap s)) =
         heap s !! ancestor (S u) (length (heap s)) ∧
       (sc s (ancestor (S u) (length (heap s))) < score_of s r)%Z) ∧
    (k1 = 0 ∨ (score_of s r ≤ sc s (_parent k1))%Z) ∧
    (∀ i, i < length (heap s) →
       (∀ u, u ≤ t → i ≠ ancestor u (length (heap s))) →
       heap s1 !! i = heap s !! i).
Proof.
  intros Hv Hm. destruct (Hv _ _ Hm) as (old & Hold & Hid).
  pose proof (lookup_lt_Some _ _ _ Hold) as Hn.
  destruct (add_player_total r s) as [s1 E].
  pose proof (add_player_Ok _ _ _ _ E) as [_ Hup].
  pose proof (add_player_content _ _ _ _ E) as [Hobj Hp].
  pose proof (add_player_map_valid _ _ _ _ Hv E) as Hv1.
  assert (Hlast : heap (appended r s) !! length (heap s) = Some r).
  { simpl. rewrite lookup_app_r by lia. by rewrite Nat.sub_diag. }
  assert (Hkey : position_map (appended r s) !! id_of (appended r s) r
                 = Some (length (heap s))).
  { simpl. unfold id_of. simpl. by rewrite lookup_insert_eq. }
  destruct (sift_up_loop_path r _ _ _ _ Hlast Hkey Hup)
    as (t & Hk1 & Hm1 & Hpass & Hstop & Hoff).
  change (id_of (appended r s) r) with (id_of s r) in Hm1.
  change (score_of (appended r s) r) with (score_of s r) in Hpass, Hstop.
  set (n := length (heap s)) in *. set (k1 := ancestor t n) in *.
  assert (Hlow : ∀ i, i < n →
            heap (appended r s) !! i = heap s !! i ∧ sc (appended r s) i = sc s i).
  { intros i Hi. unfold sc, score_of. simpl. by rewrite lookup_app_l. }
  destruct (other_occurrence (heap s1) (heap s) r old k1 Hp) as (j & Hj & Hjo);
    [by eapply list_elem_of_lookup_2|done|].
  destruct (fold_player_spec _ _ _ Hv1 Hm1)
    as (r0 & s2 & Hr0 & _ & E2 & _ & Hp2 & _).
  assert (r0 = r) as -> by congruence.
  assert (Hp3 : heap s2 ≡ₚ heap s).
  { rewrite <- Hp2 in Hp. by apply Permutation_app_inv_r in Hp. }
  exists s1, k1, old, j, s2, t.
  repeat (split; [done|]). split.
  { intros pid Hpid. destruct (Hv1 _ _ Hpid) as (r' & Hr' & Hid').
    assert (r' = old) as -> by congruence.
    assert (pid = id_of s r) as ->.
    { rewrite <- Hid', <- Hid. unfold id_of. by rewrite Hobj. }
    congruence. }
  split; [done|]. split; [done|].
  split; [rewrite Hp3; by eapply list_elem_of_lookup_2|].
  split; [done|]. split; [|split].
  - intros u Hu. destruct (Hpass u Hu) as [H1 H2].
    pose proof (ancestor_lt u n ltac:(lia)) as Hlt.
    destruct (Hlow _ Hlt) as [L1 L2]. by rewrite <- L1, <- L2.
  - destruct Hstop as [Hz|Hs]; [by left|].
    destruct (decide (k1 = 0)) as [Hz|Hnz]; [by left|right].
    pose proof (ancestor_le t n). pose proof (parent_lt k1 ltac:(lia)).
    destruct (Hlow (_parent k1)) as [_ L2]; [unfold k1 in *; lia|].
    by rewrite <- L2.
  - intros i Hi Hne. rewrite (Hoff i Hne). by apply Hlow.
Qed.

Lemma duplicate_add_keeps_older_witness :
  map_valid one_twin ∧
  position_map one_twin !! id_of one_twin 1 = Some 0 ∧
  ∃ s1 k1 old j s2 t,
    add_player 1 one_twin = Ok (RNone, s1) ∧
    _sift_up (length (heap one_twin)) (appended 1 one_twin) = Ok s1 ∧
    heap s1 ≡ₚ heap one_twin ++ [1] ∧
    position_map s1 !! id_of one_twin 1 = Some k1 ∧ heap s1 !! k1 = Some 1 ∧
    heap one_twin !! 0 = Some old ∧ id_of one_twin old = id_of one_twin 1 ∧
    j ≠ k1 ∧ heap s1 !! j = Some old ∧
    (∀ pid, position_map s1 !! pid ≠ Some j) ∧
    fold_player (id_of one_twin 1) s1 = Ok (RNone, s2) ∧
    heap s2 ≡ₚ heap one_twin ∧ old ∈ heap s2 ∧
    k1 = ancestor t (length (heap one_twin)) ∧
    (∀ u, u < t →
       heap s1 !! ancestor u (length (heap one_twin)) =
         heap one_twin !! ancestor (S u) (length (heap one_twin)) ∧
       (sc one_twin (ancestor (S u) (length (heap one_twin)))
          < score_of one_twin 1%nat)%Z) ∧
    (k1 = 0 ∨ (score_of one_twin 1%nat ≤ sc one_twin (_parent k1))%Z) ∧
    (∀ i, i < length (heap one_twin) →
       (∀ u, u ≤ t → i ≠ ancestor u (length (heap one_twin))) →
       heap s1 !! i = heap one_twin !! i).
Proof.
  assert (Hv := one_twin_map_valid).
  split; [exact Hv|]. split; [reflexivity|].
  exact (duplicate_add_keeps_older one_twin 1 0 Hv eq_refl).
Defined.

(** The same two calls, run: the second twin goes to the root, the map
    follows it, and folding the id leaves the first twin with no key. *)
Example duplicate_add_then_fold_run :
  ∃ s1 s2,
    add_player 1 one_twin = Ok (RNone, s1) ∧
    heap s1 = [1; 0] ∧ map_to_list (position_map s1) = [(7%Z, 0)] ∧
    fold_player 7 s1 = Ok (RNone, s2) ∧
    heap s2 = [0] ∧ map_to_list (position_map s2) = [].
Proof.
  eexists _, _. split; [vm_compute; reflexivity|].
  split; [reflexivity|]. split; [reflexivity|].
  split; [vm_compute; reflexivity|]. split; reflexivity.
Qed.

(** * Further properties of the engine *)

#[local] Set Warnings "-clear-no-such-hyp".

(** ** What a call that returns has read *)

Lemma fold_player_Ok pid index s v s' :
  position_map s !! pid = Some index →
  fold_player pid s = Ok (v, s') →
  ∃ r b, heap s !! index = Some r ∧
         heap s !! (length (heap s) - 1) = Some b ∧
         v = RNone ∧ same_content (detached pid index r b s) s'.
Proof.
  intros Hm H.
  destruct (heap s !! index) as [r|] eqn:Hr.
  2: { unfold fold_player, heap_at in H. rewrite Hm, Hr in H. discriminate. }
  pose proof (lookup_lt_Some _ _ _ Hr) as Hlt.
  destruct (lookup_lt_is_Some_2 (heap s) (length (heap s) - 1)) as [b Hb]; [lia|].
  exists r, b. split; [done|]. split; [done|].
  rewrite (fold_player_present _ _ _ _ _ Hm Hr Hb) in H.
  case_decide.
  - bind_inv H. bind_inv H. injection H as <- <-. split; [done|].
    destruct (sift_up_content _ _ _ E) as [Ho1 Hp1].
    destruct (sift_down_content _ _ _ E0) as [Ho2 Hp2].
    split; [congruence|]. by rewrite Hp2.
  - injection H as <- <-. split; [done|]. apply same_content_refl.
Qed.

Lemma update_hand_strength_Ok pid index w s v s' :
  position_map s !! pid = Some index →
  update_hand_strength pid w s = Ok (v, s') →
  ∃ r, heap s !! index = Some r ∧ v = RNone ∧
       same_content (set_hand_score r w s) s' ∧
       (heap_ordered (set_hand_score r w s) → s' = set_hand_score r w s).
Proof.
  intros Hm H.
  destruct (heap s !! index) as [r|] eqn:Hr.
  2: { unfold update_hand_strength, score_at, heap_at in H.
       rewrite Hm, Hr in H. discriminate. }
  pose proof (lookup_lt_Some _ _ _ Hr) as Hlt.
  exists r. split; [done|].
  rewrite (update_hand_strength_present _ _ _ _ _ Hm Hr) in H.
  bind_inv H. injection H as <- <-. split; [done|].
  case_decide.
  - split; [by eapply sift_up_content|]. intros Ho.
    rewrite sift_up_noop in E; [by injection E|done|].
    intros H0. apply Ho. simpl. lia.
  - split; [by eapply sift_down_content|]. intros Ho.
    rewrite (sift_down_noop _ _ Ho) in E. by injection E.
Qed.

(** ** X1: how many players are in *)

(** X1: a call that returns changes the number of stored players in one way
    only: [add_player] adds exactly one, [fold_player] takes exactly one out
    when the id is a key of the position map and leaves the state as it is
    otherwise, [update_hand_strength] and [get_winner] keep the number. *)
Theorem count_after_call o s v s' :
  run_op o s = Ok (v, s') →
  match o with
  | AddPlayer _ => length (heap s') = S (length (heap s))
  | FoldPlayer pid =>
      if decide (is_Some (position_map s !! pid))
      then S (length (heap s')) = length (heap s)
      else s' = s
  | UpdateHandStrength _ _ | GetWinner => length (heap s') = length (heap s)
  end.
Proof.
  intros H. destruct o as [r| |pid|pid w]; simpl in H.
  - destruct (add_player_content _ _ _ _ H) as [_ Hp].
    rewrite Hp, length_app. simpl. lia.
  - unfold get_winner in H. by injection H as _ <-.
  - case_decide as Hk.
    + destruct Hk as [index Hm].
      destruct (fold_player_Ok _ _ _ _ _ Hm H) as (r & b & Hr & _ & _ & Hc).
      rewrite (same_content_length _ _ Hc), detached_length.
      pose proof (lookup_lt_Some _ _ _ Hr). lia.
    + rewrite fold_player_absent in H; [by injection H|].
      by apply eq_None_not_Some.
  - destruct (position_map s !! pid) as [index|] eqn:Hm.
    + destruct (update_hand_strength_Ok _ _ _ _ _ _ Hm H) as (r & _ & _ & Hc & _).
      by rewrite (same_content_length _ _ Hc).
    + rewrite update_hand_strength_absent in H by done. by injection H as _ <-.
Qed.

Lemma count_after_call_witness :
  ∃ s', run_op (FoldPlayer 4) dealt = Ok (RNone, s') ∧
        S (length (heap s')) = length (heap dealt).
Proof.
  eexists. split; [vm_compute; reflexivity|].
  exact (count_after_call (FoldPlayer 4) dealt RNone _ eq_refl).
Defined.

(** ** X2: what a call does to the players themselves *)

(** X2: no call changes the id or the name of any object; only
    [update_hand_strength] changes a score, and then of one object only, the
    one in the slot the position map gives for the id, which gets the new
    score. *)
Theorem players_after_call o s v s' :
  run_op o s = Ok (v, s') →
  (∀ r, id_of s' r = id_of s r ∧ name (objects s' r) = name (objects s r)) ∧
  match o with
  | UpdateHandStrength pid w =>
      ∀ r, score_of s' r =
             match position_map s !! pid ≫= (λ index, heap s !! index) with
             | Some r0 => if decide (r = r0) then w else score_of s r
             | None => score_of s r
             end
  | _ => objects s' = objects s
  end.
Proof.
  intros H. destruct o as [r| |pid|pid w]; simpl in H.
  - destruct (add_player_content _ _ _ _ H) as [Ho _].
    unfold id_of. by rewrite Ho.
  - unfold get_winner in H. by injection H as _ <-.
  - destruct (position_map s !! pid) as [index|] eqn:Hm.
    + destruct (fold_player_Ok _ _ _ _ _ Hm H) as (r & b & _ & _ & _ & Ho & _).
      unfold id_of. by rewrite Ho.
    + rewrite fold_player_absent in H by done. by injection H as _ <-.
  - destruct (position_map s !! pid) as [index|] eqn:Hm; simpl.
    + destruct (update_hand_strength_Ok _ _ _ _ _ _ Hm H) as (r0 & Hr & _ & [Ho _] & _).
      rewrite Hr. unfold id_of, score_of. rewrite Ho. split.
      * intros r. simpl. by destruct (r =? r0).
      * intros r. apply set_hand_score_score.
    + rewrite update_hand_strength_absent in H by done. by injection H as _ <-.
Qed.

Lemma players_after_call_witness :
  ∃ s', run_op (UpdateHandStrength 1 850) dealt = Ok (RNone, s') ∧
        score_of s' 0 = 850%Z ∧ score_of s' 1 = 500%Z ∧ id_of s' 0 = 1%Z.
Proof.
  eexists. split; [vm_compute; reflexivity|].
  destruct (players_after_call (UpdateHandStrength 1 850) dealt RNone _ eq_refl)
    as [Hid Hsc].
  split; [exact (Hsc 0)|]. split; [exact (Hsc 1)|]. exact (proj1 (Hid 0)).
Defined.

(** ** X3: an update that needs no move *)

Lemma set_same_score r s r' :
  objects (set_hand_score r (score_of s r) s) r' = objects s r'.
Proof.
  unfold score_of. simpl. destruct (r' =? r) eqn:E; [|done].
  apply Nat.eqb_eq in E. subst. by destruct (objects s r).
Qed.

Lemma set_same_score_ordered r s :
  heap_ordered s → heap_ordered (set_hand_score r (score_of s r) s).
Proof.
  intros Ho i Hi.
  assert (Hsc : ∀ k, sc (set_hand_score r (score_of s r) s) k = sc s k).
  { intros k. unfold sc. simpl. destruct (heap s !! k) as [r'|]; [|done]. simpl.
    unfold score_of at 1 3. by rewrite set_same_score. }
  rewrite !Hsc. by apply Ho.
Qed.

(** X3: when the array with the new score written in is still a heap,
    [update_hand_strength] writes the score and moves nothing: array and
    position map stay as they are.  Updating a player of a heap to the score
    it already has is such a call. *)
Theorem update_in_place s pid index r :
  position_map s !! pid = Some index → heap s !! index = Some r →
  (∀ w, heap_ordered (set_hand_score r w s) →
        update_hand_strength pid w s = Ok (RNone, set_hand_score r w s)) ∧
  (heap_ordered s →
     ∃ s', update_hand_strength pid (score_of s r) s = Ok (RNone, s') ∧
           heap s' = heap s ∧ position_map s' = position_map s ∧
           ∀ r', objects s' r' = objects s r').
Proof.
  intros Hm Hr.
  assert (Hgen : ∀ w, heap_ordered (set_hand_score r w s) →
            update_hand_strength pid w s = Ok (RNone, set_hand_score r w s)).
  { intros w Ho. rewrite (update_hand_strength_present _ _ _ _ _ Hm Hr).
    pose proof (lookup_lt_Some _ _ _ Hr) as Hlt.
    case_decide.
    - rewrite sift_up_noop; [done|done|]. intros H0. apply Ho. simpl. lia.
    - by rewrite (sift_down_noop _ _ Ho). }
  split; [exact Hgen|]. intros Ho.
  exists (set_hand_score r (score_of s r) s).
  split; [apply Hgen; by apply set_same_score_ordered|].
  split; [done|]. split; [done|]. apply set_same_score.
Qed.

Lemma update_in_place_witness :
  position_map dealt !! 2%Z = Some 0 ∧ heap dealt !! 0 = Some 1 ∧
  heap_ordered dealt ∧
  ∃ s', update_hand_strength 2 (score_of dealt 1) dealt = Ok (RNone, s') ∧
        heap s' = heap dealt ∧ position_map s' = position_map dealt ∧
        ∀ r', objects s' r' = objects dealt r'.
Proof.
  split; [reflexivity|]. split; [reflexivity|]. split; [exact dealt_ordered|].
  exact (proj2 (update_in_place dealt 2 0 1 eq_refl eq_refl) dealt_ordered).
Defined.

(** ** X4: what [fold_player] takes out *)

(** Once the player of [pid] is out of an indexed array, its id is gone. *)
Lemma folded_id_gone s s' pid index r :
  map_valid s → indexed s → map_valid s' → indexed s' →
  heap s !! index = Some r → id_of s r = pid →
  objects s' = objects s → heap s' ++ [r] ≡ₚ heap s →
  position_map s' !! pid = None ∧
  (∀ r', r' ∈ heap s' → id_of s r' ≠ pid) ∧
  dom (position_map s') = dom (position_map s) ∖ {[pid]}.
Proof.
  intros Hv Hx Hv' Hx' Hr Hid Hobj Hp.
  assert (Hids : id_of s' = id_of s) by (unfold id_of; by rewrite Hobj).
  assert (Hnd : NoDup (heap s' ++ [r])) by (rewrite Hp; by apply indexed_NoDup).
  apply NoDup_app in Hnd as (_ & Hnot & _).
  assert (Hother : ∀ r', r' ∈ heap s' → id_of s r' ≠ pid).
  { intros r' Hin Heq. apply (Hnot r' Hin).
    assert (Hin' : r' ∈ heap s) by (rewrite <- Hp; apply elem_of_app; by left).
    apply list_elem_of_lookup in Hin' as [i Hi].
    assert (i = index) as -> by (apply (indexed_inj s i index r' r Hx Hi Hr); congruence).
    assert (r' = r) as -> by congruence. apply list_elem_of_singleton. done. }
  split; [|split; [done|]].
  - destruct (position_map s' !! pid) as [k|] eqn:Hk; [|done].
    destruct (Hv' _ _ Hk) as (r' & Hr' & Hid').
    exfalso. apply (Hother r'); [by eapply list_elem_of_lookup_2|].
    by rewrite <- Hids.
  - rewrite (keys_are_ids s' Hv' Hx'), (keys_are_ids s Hv Hx), Hids, <- Hp.
    rewrite fmap_app, list_to_set_app_L. simpl. rewrite Hid.
    assert (pid ∉ (list_to_set (id_of s <$> heap s') : gset Z)).
    { rewrite elem_of_list_to_set, list_elem_of_fmap.
      intros (r' & -> & Hin). by apply (Hother r'). }
    set_solver.
Qed.

(** X4: on a state whose position map is valid, [fold_player] of an id that
    is a key returns, and takes out of the array exactly one slot, the one
    the map gives for the id, which holds a player of that id; no object is
    changed.  When moreover every slot is indexed by the map, the id is then
    no key any more, no player left carries it, every other key is kept, and
    a second [fold_player] of the id changes nothing. *)
Theorem fold_player_removes s pid index :
  map_valid s → position_map s !! pid = Some index →
  ∃ r s',
    heap s !! index = Some r ∧ id_of s r = pid ∧
    fold_player pid s = Ok (RNone, s') ∧
    objects s' = objects s ∧ heap s' ++ [r] ≡ₚ heap s ∧ map_valid s' ∧
    (indexed s →
       indexed s' ∧ position_map s' !! pid = None ∧
       (∀ r', r' ∈ heap s' → id_of s r' ≠ pid) ∧
       dom (position_map s') = dom (position_map s) ∖ {[pid]} ∧
       fold_player pid s' = Ok (RNone, s')).
Proof.
  intros Hv Hm.
  destruct (fold_player_spec _ _ _ Hv Hm)
    as (r & s' & Hr & Hid & E & Hobj & Hp & Hv' & Hx' & _).
  exists r, s'. repeat (split; [done|]). intros Hx.
  specialize (Hx' Hx).
  destruct (folded_id_gone s s' pid index r) as (Hgone & Hother & Hdom); auto.
  split; [done|]. split; [done|]. split; [done|]. split; [done|].
  by apply fold_player_absent.
Qed.

Lemma fold_player_removes_witness :
  map_valid dealt ∧ position_map dealt !! 4%Z = Some 1 ∧
  ∃ r s',
    heap dealt !! 1 = Some r ∧ id_of dealt r = 4%Z ∧
    fold_player 4 dealt = Ok (RNone, s') ∧
    objects s' = objects dealt ∧ heap s' ++ [r] ≡ₚ heap dealt ∧ map_valid s' ∧
    (indexed dealt →
       indexed s' ∧ position_map s' !! 4%Z = None ∧
       (∀ r', r' ∈ heap s' → id_of dealt r' ≠ 4%Z) ∧
       dom (position_map s') = dom (position_map dealt) ∖ {[4%Z]} ∧
       fold_player 4 s' = Ok (RNone, s')).
Proof.
  split; [exact dealt_map_valid|]. split; [reflexivity|].
  exact (fold_player_removes dealt 4 1 dealt_map_valid eq_refl).
Defined.

(** ** X5: where [add_player] leaves the new player *)

Lemma has_key_closed pid : swap_closed (λ s, is_Some (position_map s !! pid)).
Proof. intros i j a b s _ _ _. apply swapped_has_key. Qed.

(** The keys after [add_player] of a new id into a bijection. *)
Lemma added_id_dom s s' r v :
  map_valid s → indexed s → position_map s !! id_of s r = None →
  add_player r s = Ok (v, s') →
  map_valid s' ∧ indexed s' ∧
  dom (position_map s') = {[id_of s r]} ∪ dom (position_map s).
Proof.
  intros Hv Hx Hnew E.
  pose proof (add_player_content _ _ _ _ E) as [Hobj Hp].
  pose proof (add_player_map_valid _ _ _ _ Hv E) as Hv'.
  pose proof (add_player_indexed _ _ _ _ Hx Hnew E) as Hx'.
  split; [done|]. split; [done|].
  assert (Hids : id_of s' = id_of s) by (unfold id_of; by rewrite Hobj).
  rewrite (keys_are_ids s' Hv' Hx'), (keys_are_ids s Hv Hx), Hids, Hp.
  rewrite fmap_app, list_to_set_app_L. simpl. set_solver.
Qed.

(** The slot the map gives for the id of the player just added holds it. *)
Lemma added_player_slot s s' r v :
  add_player r s = Ok (v, s') →
  ∃ k, position_map s' !! id_of s r = Some k ∧ heap s' !! k = Some r.
Proof.
  intros E. pose proof (add_player_Ok _ _ _ _ E) as [_ Hup].
  assert (Hlast : heap (appended r s) !! length (heap s) = Some r).
  { simpl. rewrite lookup_app_r by lia. by rewrite Nat.sub_diag. }
  assert (Hkey : position_map (appended r s) !! id_of (appended r s) r
                 = Some (length (heap s))).
  { simpl. unfold id_of. simpl. by rewrite lookup_insert_eq. }
  destruct (sift_up_loop_tracks r _ _ _ _ Hlast Hkey Hup) as (k & _ & Hk & Hm).
  change (id_of (appended r s) r) with (id_of s r) in Hm. eauto.
Qed.

(** X5: [add_player] always returns; afterwards the position map gives for
    the player's id a slot that holds this very player, whatever the sift
    moved, and every id that was a key still is one.  When the map was a
    bijection with the slots and the id is new, it still is one, and the keys
    are the old keys and the new id. *)
Theorem add_player_lookup s r :
  ∃ s' k,
    add_player r s = Ok (RNone, s') ∧
    position_map s' !! id_of s r = Some k ∧ heap s' !! k = Some r ∧
    (∀ pid, is_Some (position_map s !! pid) → is_Some (position_map s' !! pid)) ∧
    (map_valid s → indexed s → position_map s !! id_of s r = None →
       map_valid s' ∧ indexed s' ∧
       dom (position_map s') = {[id_of s r]} ∪ dom (position_map s)).
Proof.
  destruct (add_player_total r s) as [s' E].
  destruct (added_player_slot _ _ _ _ E) as (k & Hm & Hk).
  exists s', k. split; [done|]. split; [done|]. split; [done|]. split.
  - intros pid Hpid. pose proof (add_player_Ok _ _ _ _ E) as [_ Hup].
    eapply (sift_up_loop_closed _ (has_key_closed pid)); [|exact Hup].
    simpl. rewrite lookup_insert. case_decide; eauto.
  - intros Hv Hx Hnew. by eapply added_id_dom.
Qed.

(** ** X6: adding a player and folding it again *)

(** X6: on a structure whose position map is a bijection with the slots,
    adding a player with a new id and then folding that id gives back the
    same players (as a multiset), the same keys and the same objects, with
    the bijection, and the heap order if it held, intact. *)
Theorem add_then_fold s r :
  map_valid s → indexed s → position_map s !! id_of s r = None →
  ∃ s1 s2,
    add_player r s = Ok (RNone, s1) ∧
    fold_player (id_of s r) s1 = Ok (RNone, s2) ∧
    heap s2 ≡ₚ heap s ∧ objects s2 = objects s ∧
    dom (position_map s2) = dom (position_map s) ∧
    map_valid s2 ∧ indexed s2 ∧
    (heap_ordered s → heap_ordered s2).
Proof.
  intros Hv Hx Hnew.
  destruct (add_player_total r s) as [s1 E1].
  destruct (added_player_slot _ _ _ _ E1) as (k & Hm1 & Hk1).
  destruct (added_id_dom _ _ _ _ Hv Hx Hnew E1) as (Hv1 & Hx1 & Hdom1).
  pose proof (add_player_content _ _ _ _ E1) as [Hobj1 Hp1].
  destruct (fold_player_spec _ _ _ Hv1 Hm1)
    as (r0 & s2 & Hr0 & Hid0 & E2 & Hobj2 & Hp2 & Hv2 & Hx2 & Ho2).
  assert (r0 = r) as -> by congruence.
  destruct (folded_id_gone s1 s2 (id_of s r) k r) as (_ & _ & Hdom2); auto.
  exists s1, s2. split; [done|]. split; [done|]. split.
  { rewrite <- Hp2 in Hp1. by apply Permutation_app_inv_r in Hp1. }
  split; [congruence|]. split.
  { rewrite Hdom2, Hdom1.
    assert (id_of s r ∉ dom (position_map s)) by (by apply not_elem_of_dom).
    set_solver. }
  split; [done|]. split; [auto|].
  intros Ho. apply Ho2. by eapply add_player_ordered.
Qed.

Lemma three_in_run : run (take 3 scenario) (init table) = Ok three_in.
Proof. vm_compute. reflexivity. Qed.

Lemma three_in_bijection : map_valid three_in ∧ indexed three_in.
Proof.
  destruct (run_indexed (take 3 scenario) (init table)) as (s & E & Hv & Hx);
    auto with heap.
  rewrite three_in_run in E. by injection E as <-.
Qed.

Lemma dealt_indexed : indexed dealt.
Proof.
  destruct (run_indexed (take 4 scenario) (init table)) as (s & E & Hv & Hx);
    auto with heap.
  rewrite dealt_run in E. by injection E as <-.
Qed.

Lemma add_then_fold_witness :
  map_valid three_in ∧ indexed three_in ∧
  position_map three_in !! id_of three_in 3 = None ∧
  ∃ s1 s2,
    add_player 3 three_in = Ok (RNone, s1) ∧
    fold_player (id_of three_in 3) s1 = Ok (RNone, s2) ∧
    heap s2 ≡ₚ heap three_in ∧ objects s2 = objects three_in ∧
    dom (position_map s2) = dom (position_map three_in) ∧
    map_valid s2 ∧ indexed s2 ∧
    (heap_ordered three_in → heap_ordered s2).
Proof.
  destruct three_in_bijection as [Hv Hx].
  split; [exact Hv|]. split; [exact Hx|]. split; [reflexivity|].
  exact (add_then_fold three_in 3 Hv Hx eq_refl).
Defined.

(** ** X7: who leads after a new player or a raise *)

Lemma strict_max_is_root s r :
  heap_ordered s → r ∈ heap s →
  (∀ r', r' ∈ heap s → r' ≠ r → (score_of s r' < score_of s r)%Z) →
  heap s !! 0 = Some r.
Proof.
  intros Ho Hin Hmax. apply list_elem_of_lookup in Hin as [k Hk].
  pose proof (lookup_lt_Some _ _ _ Hk) as Hlt.
  destruct (lookup_lt_is_Some_2 (heap s) 0) as [r0 Hr0]; [lia|].
  destruct (decide (r0 = r)) as [->|Hne]; [done|].
  pose proof (root_max s Ho k Hlt) as Hle.
  rewrite (sc_lookup _ _ _ Hk), (sc_lookup _ _ _ Hr0) in Hle.
  pose proof (Hmax r0 (list_elem_of_lookup_2 _ _ _ Hr0) Hne). lia.
Qed.

(** A player that is not above the root never reaches the root. *)
Lemma sift_up_loop_root fuel : ∀ i s s',
  i < length (heap s) → (sc s i ≤ sc s 0)%Z →
  sift_up_loop fuel i s = Ok s' → heap s' !! 0 = heap s !! 0.
Proof.
  induction fuel as [|fuel IH]; intros i s s' Hi Hle H; [discriminate|].
  rewrite sift_up_loop_step in H by done.
  case_decide as Hc; [|by injection H as <-].
  destruct Hc as [H0 Hlt]. bind_inv H.
  apply swap_Ok in E as (a & b & Ha & Hb & ->).
  pose proof (parent_lt i H0) as Hp.
  assert (0 < _parent i) as Hp0.
  { destruct (decide (_parent i = 0)) as [E|]; [|lia]. rewrite E in Hlt. lia. }
  rewrite (IH (_parent i) (swapped i (_parent i) a b s) s'); [| | |exact H].
  - rewrite (swapped_lookup _ _ _ _ _ Ha Hb). by rewrite !decide_False by lia.
  - rewrite swapped_length. lia.
  - rewrite !(swapped_sc _ _ _ _ _ Ha Hb).
    rewrite decide_True by done. by rewrite !decide_False by lia.
Qed.

(** X7: on a structure that satisfies the heap invariant, after
    [add_player] the winner is the new player when its score is strictly
    above the former winner's (or the structure was empty), and the former
    winner otherwise: a tie keeps the one who led. *)
Theorem add_player_winner s r :
  heap_ordered s →
  ∃ s', add_player r s = Ok (RNone, s') ∧
    get_winner s' =
      Ok (RPlayer match heap s with
                  | [] => r
                  | r0 :: _ =>
                      if decide (score_of s r0 < score_of s r)%Z then r else r0
                  end, s').
Proof.
  intros Ho. destruct (add_player_total r s) as [s' E]. exists s'.
  split; [done|].
  pose proof (add_player_Ok _ _ _ _ E) as [_ Hup].
  pose proof (add_player_content _ _ _ _ E) as [Hobj Hp].
  pose proof (add_player_ordered _ _ _ _ Ho E) as Ho'.
  assert (Hsc : score_of s' = score_of s) by (unfold score_of; by rewrite Hobj).
  assert (Hroot : ∀ x, heap s' !! 0 = Some x → get_winner s' = Ok (RPlayer x, s')).
  { intros x Hx. unfold get_winner. destruct (heap s'); [done|]. by injection Hx as ->. }
  apply Hroot.
  destruct (heap s) as [|r0 t] eqn:Hh.
  - simpl in Hp. apply Permutation_singleton_r in Hp. by rewrite Hp.
  - assert (Hr0 : heap s !! 0 = Some r0) by (by rewrite Hh).
    case_decide as Hc.
    + apply strict_max_is_root; [done|rewrite Hp; apply elem_of_app; right; left|].
      intros r' Hin Hne. rewrite Hp in Hin. rewrite Hsc.
      apply elem_of_app in Hin as [Hin|Hin].
      * rewrite <- Hh in Hin. apply list_elem_of_lookup in Hin as [k Hk].
        pose proof (root_max s Ho k (lookup_lt_Some _ _ _ Hk)) as Hle.
        rewrite (sc_lookup _ _ _ Hk), (sc_lookup _ _ _ Hr0) in Hle. lia.
      * apply list_elem_of_singleton in Hin. done.
    + rewrite (sift_up_loop_root (S (length (r0 :: t))) (length (r0 :: t))
                 (appended r s) s');
        [| | |exact Hup].
      * simpl. by rewrite Hh.
      * simpl. rewrite Hh, length_app. simpl. lia.
      * unfold sc. simpl. rewrite Hh. simpl.
        rewrite lookup_app_r by (simpl; lia).
        rewrite Nat.sub_diag. simpl.
        unfold score_of in *. simpl. lia.
Qed.

Lemma add_player_winner_witness :
  heap_ordered three_in ∧
  ∃ s', add_player 3 three_in = Ok (RNone, s') ∧
        get_winner s' = Ok (RPlayer 1, s').
Proof.
  assert (Ho : heap_ordered three_in)
    by (apply heap_orderedb_true; vm_compute; reflexivity).
  split; [exact Ho|]. exact (add_player_winner three_in 3 Ho).
Defined.

(** X8: on a structure that satisfies the heap invariant and holds each
    object once, [update_hand_strength] to a score strictly above the score
    of every other stored player makes the updated player the winner, with
    the new score. *)
Theorem update_to_top s pid index r w :
  map_valid s → NoDup (heap s) → heap_ordered s →
  position_map s !! pid = Some index → heap s !! index = Some r →
  (∀ r', r' ∈ heap s → r' ≠ r → (score_of s r' < w)%Z) →
  ∃ s', update_hand_strength pid w s = Ok (RNone, s') ∧
        get_winner s' = Ok (RPlayer r, s') ∧ score_of s' r = w.
Proof.
  intros Hv Hnd Ho Hm Hr Hmax.
  destruct (update_hand_strength_spec _ w _ _ Hv Hm)
    as (r0 & s' & Hr0 & _ & E & Hobj & Hp & _ & _ & Ho').
  assert (r0 = r) as -> by congruence.
  specialize (Ho' Hnd Ho). exists s'. split; [done|].
  assert (Hsc : ∀ r', score_of s' r' = if decide (r' = r) then w else score_of s r').
  { intros r'. unfold score_of at 1. rewrite Hobj. apply set_hand_score_score. }
  assert (Hw : score_of s' r = w) by (by rewrite Hsc, decide_True).
  split; [|done].
  assert (heap s' !! 0 = Some r) as Hroot.
  { apply strict_max_is_root; [done|rewrite Hp; by eapply list_elem_of_lookup_2|].
    intros r' Hin Hne. rewrite Hp in Hin. rewrite Hw, Hsc, decide_False by done.
    by apply Hmax. }
  unfold get_winner. destruct (heap s'); [done|]. by injection Hroot as ->.
Qed.

Lemma update_to_top_witness :
  ∃ s', update_hand_strength 1 850 dealt = Ok (RNone, s') ∧
        get_winner s' = Ok (RPlayer 0, s') ∧ score_of s' 0 = 850%Z.
Proof.
  apply (update_to_top dealt 1 3 0 850 dealt_map_valid dealt_NoDup dealt_ordered
           eq_refl eq_refl).
  intros r' Hin Hne. simpl in Hin.
  repeat (apply elem_of_cons in Hin as [->|Hin]; [vm_compute; reflexivity || done|]).
  by apply elem_of_nil in Hin.
Defined.

(** ** X9: [_swap] *)

(** X9: [_swap i j] raises [IndexError] exactly when one of the two slots is
    outside the array; otherwise a second [_swap i j] gives back the array it
    started from, touches no object, and, when every slot was indexed by the
    position map, gives back the map too. *)
Theorem swap_twice i j s :
  (_swap i j s = Raise IndexError ↔
     ¬ (i < length (heap s) ∧ j < length (heap s))) ∧
  (∀ s1, _swap i j s = Ok s1 →
     ∃ s2, _swap i j s1 = Ok s2 ∧
           heap s2 = heap s ∧ objects s2 = objects s ∧
           (indexed s → position_map s2 = position_map s)).
Proof.
  split.
  - split.
    + intros H [Hi Hj]. destruct (swap_in_range s i j Hi Hj) as [s1 E]. congruence.
    + intros H. unfold _swap, heap_at.
      destruct (heap s !! j) as [b|] eqn:Hj; [|done]. simpl.
      destruct (heap s !! i) as [a|] eqn:Hi; [|done].
      exfalso. apply H. split; by eapply lookup_lt_Some.
  - intros s1 E. apply swap_Ok in E as (a & b & Ha & Hb & ->).
    set (s1 := swapped i j a b s).
    assert (Ha1 : heap s1 !! i = Some (if decide (i = j) then a else b)).
    { unfold s1. rewrite (swapped_lookup _ _ _ _ _ Ha Hb).
      case_decide; [done|]. by rewrite decide_True. }
    assert (Hb1 : heap s1 !! j = Some a).
    { unfold s1. rewrite (swapped_lookup _ _ _ _ _ Ha Hb). by rewrite decide_True. }
    eexists. split; [exact (swap_lookup _ _ _ _ _ Ha1 Hb1)|].
    split; [|split; [done|]].
    + apply list_eq. intros k.
      rewrite (swapped_lookup _ _ _ _ _ Ha1 Hb1). unfold s1.
      rewrite (swapped_lookup _ _ _ _ _ Ha Hb).
      destruct (decide (i = j)) as [->|Hne].
      * assert (a = b) as -> by congruence.
        destruct (decide (k = j)) as [->|]; done.
      * destruct (decide (k = j)) as [->|]; [done|].
        destruct (decide (k = i)) as [->|]; done.
    + intros Hx. pose proof (Hx _ _ Ha) as Hma. pose proof (Hx _ _ Hb) as Hmb.
      simpl. unfold id_of in *. simpl.
      apply map_eq. intros pid. rewrite !lookup_insert.
      destruct (decide (i = j)) as [->|Hne].
      * assert (a = b) as -> by congruence.
        repeat case_decide; congruence.
      * repeat case_decide; congruence.
Qed.

(** ** X10: what the sifts leave alone *)

Lemma sift_up_loop_frame fuel : ∀ i s s' k,
  sift_up_loop fuel i s = Ok s' → i < k → heap s' !! k = heap s !! k.
Proof.
  induction fuel as [|fuel IH]; intros i s s' k H Hk; [discriminate|].
  simpl in H. destruct (0 <? i) eqn:Hi; [|by injection H as <-].
  apply Nat.ltb_lt in Hi. pose proof (parent_lt i Hi).
  bind_inv H. bind_inv H.
  destruct (x0 <? x)%Z; [|by injection H as <-].
  bind_inv H. apply swap_Ok in E1 as (a & b & Ha & Hb & ->).
  rewrite (IH _ _ _ k H) by lia.
  rewrite (swapped_lookup _ _ _ _ _ Ha Hb). by rewrite !decide_False by lia.
Qed.

Lemma sift_down_rec_frame fuel : ∀ i s s' k,
  sift_down_rec fuel i s = Ok s' → k < i → heap s' !! k = heap s !! k.
Proof.
  induction fuel as [|fuel IH]; intros i s s' k H Hk; [discriminate|].
  rewrite sift_down_rec_step in H. case_decide as Hc; [by injection H as <-|].
  destruct (max_child_cases i s) as [|(Hm & _ & _)]; [done|].
  bind_inv H. apply swap_Ok in E as (a & b & Ha & Hb & ->).
  rewrite (IH _ _ _ k H) by lia.
  rewrite (swapped_lookup _ _ _ _ _ Ha Hb). by rewrite !decide_False by lia.
Qed.

(** X10: neither sift changes an object or the multiset of stored players;
    [_sift_up i] leaves every slot after [i] as it was, and [_sift_down i]
    every slot before [i]. *)
Theorem sifts_frame i s s' :
  (_sift_up i s = Ok s' →
     objects s' = objects s ∧ heap s' ≡ₚ heap s ∧
     ∀ k, i < k → heap s' !! k = heap s !! k) ∧
  (_sift_down i s = Ok s' →
     objects s' = objects s ∧ heap s' ≡ₚ heap s ∧
     ∀ k, k < i → heap s' !! k = heap s !! k).
Proof.
  split; intros H.
  - destruct (sift_up_content _ _ _ H) as [Ho Hp]. split; [done|]. split; [done|].
    intros k. by apply sift_up_loop_frame with (1 := H).
  - destruct (sift_down_content _ _ _ H) as [Ho Hp]. split; [done|]. split; [done|].
    intros k. by apply sift_down_rec_frame with (1 := H).
Qed.

(** ** X11: the position map is never stale *)

(** X11: from the empty structure, every sequence of calls, with ids or
    objects repeated or not, runs to the end without an exception, and leaves
    every key of the position map pointing inside the array, at a slot that
    holds a player of that id. *)
Theorem position_map_never_stale objs ops :
  ∃ s, run ops (init objs) = Ok s ∧
    ∀ pid k, position_map s !! pid = Some k →
      k < length (heap s) ∧ ∃ r, heap s !! k = Some r ∧ id_of s r = pid.
Proof.
  destruct (run_map_valid ops (init objs) (init_map_valid objs)) as (s & E & Hv).
  exists s. split; [done|]. intros pid k Hk.
  destruct (Hv _ _ Hk) as (r & Hr & Hid).
  split; [by eapply lookup_lt_Some|eauto].
Qed.

(** * The driver *)

(** ** [Player.__repr__] *)

Lemma length_append (a c : string) :
  String.length (a ++ c) = String.length a + String.length c.
Proof. induction a as [|x a IH]; simpl; [done|]. by rewrite IH. Qed.

Lemma append_inj_r (a b c : string) :
  (a ++ c)%string = (b ++ c)%string → a = b.
Proof.
  revert b. induction a as [|x a IH]; intros [|y b] H; simpl in H.
  - done.
  - exfalso. apply (f_equal String.length) in H.
    rewrite ?length_append in H. simpl in H. rewrite ?length_append in H. lia.
  - exfalso. apply (f_equal String.length) in H.
    rewrite ?length_append in H. simpl in H. rewrite ?length_append in H. lia.
  - injection H as -> H. f_equal. by apply IH.
Qed.

Lemma append_inj_l (c a b : string) :
  (c ++ a)%string = (c ++ b)%string → a = b.
Proof. induction c as [|x c IH]; simpl; [done|]. intros [= H]. by apply IH. Qed.

Lemma str_int_inj a b : str_int a = str_int b → a = b.
Proof.
  unfold str_int. intros H.
  assert (Some (Z.to_int a) = Some (Z.to_int b)) as Hs
    by (by rewrite <- !NilEmpty.isi, H).
  injection Hs as Hs. by rewrite <- (of_to a), <- (of_to b), Hs.
Qed.

(** X12: the text [__repr__] gives for a player shows the score without
    loss: two players of one name whose texts are equal have equal scores;
    and a player just constructed shows the score 0. *)
Theorem repr_shows_score :
  (∀ p q, name p = name q → __repr__ p = __repr__ q →
          hand_score p = hand_score q) ∧
  (∀ pid nm, __repr__ (new_player pid nm) = (nm ++ " (Score: 0)")%string).
Proof.
  split.
  - intros p q Hn H. unfold __repr__ in H. rewrite Hn in H.
    apply append_inj_l in H. apply append_inj_l in H.
    apply append_inj_r in H. by apply str_int_inj.
  - intros pid nm. reflexivity.
Qed.

(** ** [simulate_game] *)

Lemma snapshot_key ls f s r :
  snapshot ls f s → r ∈ ls →
  ∃ i, position_map s !! player_id (seats r) = Some i ∧ heap s !! i = Some r.
Proof.
  intros (_ & Hx & _ & Hp & Hid & _) Hin. rewrite <- Hp in Hin.
  apply list_elem_of_lookup in Hin as [i Hi]. exists i. split; [|done].
  rewrite <- (proj1 (Hid r)). by apply Hx.
Qed.

(** A score written into an object that is not in the array. *)
Lemma set_hand_score_outside r v s :
  r ∉ heap s → ∀ k, sc (set_hand_score r v s) k = sc s k.
Proof.
  intros Hout k. unfold sc. simpl. destruct (heap s !! k) as [r'|] eqn:Hk; [|done].
  simpl. rewrite set_hand_score_score. rewrite decide_False; [done|].
  intros ->. apply Hout. by eapply list_elem_of_lookup_2.
Qed.

Section dealing.
Context (randint : nat → Z).

Lemma deal_snapshot n : ∀ k s ls,
  snapshot ls randint s → (∀ r, r ∈ ls → r < k) →
  NoDup (player_id ∘ seats <$> (ls ++ seq k n)) →
  ∃ s', deal (seq k n) k randint s = Ok s' ∧ snapshot (ls ++ seq k n) randint s'.
Proof.
  induction n as [|n IH]; intros k s ls Hs Hlt Hnd; simpl.
  - exists s. split; [done|]. by rewrite app_nil_r.
  - destruct Hs as (Hv & Hx & Ho & Hp & Hid & Hsc).
    assert (Hout : k ∉ heap s).
    { rewrite Hp. intros Hin. specialize (Hlt _ Hin). lia. }
    set (s1 := set_hand_score k (randint k) s).
    assert (Hv1 : map_valid s1) by (by apply set_hand_score_map_valid).
    assert (Hx1 : indexed s1) by (by apply set_hand_score_indexed).
    assert (Ho1 : heap_ordered s1).
    { intros i Hi. unfold s1. rewrite !set_hand_score_outside by done. by apply Ho. }
    assert (Hid1 : ∀ r, id_of s1 r = player_id (seats r) ∧
                        name (objects s1 r) = name (seats r)).
    { intros r. unfold s1. rewrite set_hand_score_id. split; [apply Hid|].
      simpl. destruct (r =? k); apply Hid. }
    assert (Hnew : position_map s1 !! id_of s1 k = None).
    { apply not_elem_of_dom. rewrite (keys_are_ids s1 Hv1 Hx1).
      rewrite elem_of_list_to_set, list_elem_of_fmap.
      intros (r' & Heq & Hin). simpl in Hin. rewrite Hp in Hin.
      rewrite fmap_app in Hnd. apply NoDup_app in Hnd as (_ & Hnd & _).
      apply (Hnd (player_id (seats r'))).
      - apply list_elem_of_fmap. by exists r'.
      - simpl. rewrite <- (proj1 (Hid1 r')), <- Heq, (proj1 (Hid1 k)). left. }
    destruct (add_player_total k s1) as [s2 E]. rewrite E, bind_Ok_l.
    pose proof (add_player_content _ _ _ _ E) as [Hobj Hp2].
    destruct (IH (S k) s2 (ls ++ [k])) as (s' & E' & Hs').
    + split; [by eapply add_player_map_valid|].
      split; [by eapply add_player_indexed|].
      split; [by eapply add_player_ordered|].
      split; [by rewrite Hp2; simpl; rewrite Hp|].
      split.
      * intros r. unfold id_of. rewrite Hobj. apply Hid1.
      * intros r Hin. unfold score_of. rewrite Hobj.
        change (score_of s1 r = randint r). unfold s1.
        rewrite set_hand_score_score. case_decide as Hr; [by subst|].
        apply Hsc. apply elem_of_app in Hin as [Hin|Hin]; [done|].
        apply list_elem_of_singleton in Hin. done.
    + intros r Hin. apply elem_of_app in Hin as [Hin|Hin].
      * specialize (Hlt _ Hin). lia.
      * apply list_elem_of_singleton in Hin. lia.
    + by rewrite <- app_assoc.
    + exists s'. split; [exact E'|]. by rewrite <- app_assoc in Hs'.
Qed.

End dealing.

Lemma snapshot_winner ls f s :
  snapshot ls f s → ls ≠ [] →
  ∃ w, w ∈ ls ∧ get_winner s = Ok (RPlayer w, s) ∧
       ∀ r, r ∈ ls → (f r ≤ f w)%Z.
Proof.
  intros (_ & _ & Ho & Hp & _ & Hsc) Hne.
  destruct (heap s) as [|w t] eqn:Hh.
  { symmetry in Hp. apply Permutation_nil_r in Hp. done. }
  assert (Hw : heap s !! 0 = Some w) by (by rewrite Hh).
  assert (Hin : w ∈ ls) by (rewrite <- Hp; left).
  exists w. split; [done|]. split.
  - unfold get_winner. by rewrite Hh.
  - intros r Hr. rewrite <- !Hsc by done. rewrite <- Hp, <- Hh in Hr.
    apply list_elem_of_lookup in Hr as [k Hk].
    pose proof (root_max s Ho k (lookup_lt_Some _ _ _ Hk)) as Hle.
    by rewrite (sc_lookup _ _ _ Hk), (sc_lookup _ _ _ Hw) in Hle.
Qed.

Lemma snapshot_update ls f s r v :
  snapshot ls f s → r ∈ ls →
  (∀ r', r' ∈ ls → r' ≠ r → (f r' < v)%Z) →
  ∃ s', update_hand_strength (player_id (seats r)) v s = Ok (RNone, s') ∧
    snapshot ls (λ r', if decide (r' = r) then v else f r') s' ∧
    get_winner s' = Ok (RPlayer r, s') ∧
    update_hand_strength_prints (player_id (seats r)) v s =
      [("[UPDATE] " ++ name (seats r) ++ "'s score changed: "
          ++ str_int (f r) ++ " -> " ++ str_int v)%string].
Proof.
  intros Hs Hin Hmax. destruct (snapshot_key _ _ _ _ Hs Hin) as (i & Hm & Hi).
  destruct Hs as (Hv & Hx & Ho & Hp & Hid & Hsc).
  pose proof (indexed_NoDup s Hx) as Hnd.
  destruct (update_hand_strength_spec _ v _ _ Hv Hm)
    as (r0 & s' & Hr0 & _ & E & Hobj & Hp' & Hv' & Hx' & Ho').
  assert (r0 = r) as -> by congruence.
  assert (Hsc' : ∀ r', r' ∈ ls →
            score_of s' r' = if decide (r' = r) then v else f r').
  { intros r' Hr'. unfold score_of. rewrite Hobj.
    change (score_of (set_hand_score r v s) r' =
              if decide (r' = r) then v else f r').
    rewrite set_hand_score_score. case_decide; [done|]. by apply Hsc. }
  exists s'. split; [done|]. split; [|split].
  - split; [done|]. split; [auto|]. split; [auto|]. split; [by rewrite Hp'|].
    split; [|done].
    intros r'. unfold id_of. rewrite Hobj.
    change (id_of (set_hand_score r v s) r' = player_id (seats r') ∧
            name (objects (set_hand_score r v s) r') = name (seats r')).
    rewrite set_hand_score_id. split; [apply Hid|].
    simpl. destruct (r' =? r); apply Hid.
  - assert (heap s' !! 0 = Some r) as Hroot.
    { apply strict_max_is_root; [auto|by rewrite Hp', Hp|].
      intros r' Hr' Hne. rewrite Hp', Hp in Hr'.
      rewrite (Hsc' r Hin), (Hsc' r' Hr').
      rewrite decide_False by done. rewrite decide_True by done.
      by apply Hmax. }
    unfold get_winner. destruct (heap s'); [done|]. by injection Hroot as ->.
  - unfold update_hand_strength_prints. rewrite Hm, Hi.
    by rewrite (proj2 (Hid r)), (Hsc r Hin).
Qed.

Lemma snapshot_fold ls ls' f s r :
  snapshot ls f s → ls ≡ₚ ls' ++ [r] →
  ∃ s', fold_player (player_id (seats r)) s = Ok (RNone, s') ∧
    snapshot ls' f s' ∧
    fold_player_prints (player_id (seats r)) s =
      [("[FOLD] " ++ name (seats r) ++ " has folded.")%string].
Proof.
  intros Hs Hls.
  assert (Hin : r ∈ ls) by (rewrite Hls; apply elem_of_app; right; left).
  destruct (snapshot_key _ _ _ _ Hs Hin) as (i & Hm & Hi).
  destruct Hs as (Hv & Hx & Ho & Hp & Hid & Hsc).
  destruct (fold_player_spec _ _ _ Hv Hm)
    as (r0 & s' & Hr0 & _ & E & Hobj & Hp' & Hv' & Hx' & Ho').
  assert (r0 = r) as -> by congruence.
  exists s'. split; [done|]. split.
  - split; [done|]. split; [auto|]. split; [auto|]. split.
    { apply (Permutation_app_inv_r [r]). by rewrite Hp', Hp. }
    split.
    + intros r'. unfold id_of. rewrite Hobj. apply Hid.
    + intros r' Hr'. unfold score_of. rewrite Hobj. apply Hsc.
      rewrite Hls. apply elem_of_app. by left.
  - unfold fold_player_prints. rewrite Hm, Hi. by rewrite (proj2 (Hid r)).
Qed.

Lemma snapshot_show ls f s r :
  snapshot ls f s → r ∈ ls →
  show_winner s (RPlayer r) =
    (name (seats r) ++ " (Score: " ++ str_int (f r) ++ ")")%string.
Proof.
  intros (_ & _ & _ & _ & Hid & Hsc) Hin. simpl. unfold __repr__.
  rewrite (proj2 (Hid r)). f_equal. f_equal. f_equal. f_equal. by apply Hsc.
Qed.

(** X13: whatever the four calls of [random.randint(100, 500)] return,
    [simulate_game] runs to its end without an exception and prints the
    fifteen lines of [scripted_stdout]: the first leader is a player whose
    dealt score is the largest, then Alice leads with 850, Dave folds and
    three players remain, Charlie leads with 900, and the winner announced
    is Charlie with score 1200. *)
Theorem simulate_game_prints randint :
  (∀ k, k < 4 → (100 ≤ randint k ≤ 500)%Z) →
  ∃ w, w < 4 ∧ (∀ k, k < 4 → (randint k ≤ randint w)%Z) ∧
       simulate_game randint = Returns (scripted_stdout randint w).
Proof.
  intros Hr.
  assert (Hlt : ∀ r, r ∈ [0; 1; 2; 3] ↔ r < 4).
  { intros r. rewrite !elem_of_cons, elem_of_nil. lia. }
  assert (H0 : snapshot [] randint (init seats)).
  { split; [apply init_map_valid|]. split; [apply init_indexed|].
    split; [apply init_ordered|]. split; [done|]. split; [done|].
    intros r Hin. by apply elem_of_nil in Hin. }
  destruct (deal_snapshot randint 4 0 (init seats) [] H0) as (s4 & E4 & H4).
  { intros r Hin. by apply elem_of_nil in Hin. }
  { compute_done. }
  change ([] ++ seq 0 4) with [0; 1; 2; 3] in H4.
  change (seq 0 4) with [0; 1; 2; 3] in E4.
  destruct (snapshot_winner _ _ _ H4) as (w & Hw & Ew & Hmax); [done|].
  destruct (snapshot_update _ _ _ 0 850 H4) as (s5 & E5 & H5 & Ew5 & Hp5).
  { apply Hlt. lia. }
  { intros r' Hin _. apply Hlt in Hin. specialize (Hr r' Hin). lia. }
  destruct (snapshot_fold [0; 1; 2; 3] [0; 1; 2] _ _ 3 H5) as (s6 & E6 & H6 & Hp6);
    [done|].
  destruct (snapshot_update _ _ _ 2 900 H6) as (s7 & E7 & H7 & Ew7 & Hp7).
  { rewrite !elem_of_cons. auto. }
  { intros r' Hin Hne. cbv beta. destruct (decide (r' = 0)); [reflexivity|].
    assert (r' < 4) as Hr' by (apply Hlt; rewrite !elem_of_cons in *; naive_solver).
    specialize (Hr r' Hr'). lia. }
  destruct (snapshot_update _ _ _ 2 1200 H7) as (s8 & E8 & H8 & Ew8 & Hp8).
  { rewrite !elem_of_cons. auto. }
  { intros r' Hin Hne. cbv beta. destruct (decide (r' = 2)); [done|].
    destruct (decide (r' = 0)); [reflexivity|].
    assert (r' < 4) as Hr' by (apply Hlt; rewrite !elem_of_cons in *; naive_solver).
    specialize (Hr r' Hr'). lia. }
  assert (Hlen : length (heap s6) = 3).
  { destruct H6 as (_ & _ & _ & Hp & _). by rewrite Hp. }
  exists w. split; [by apply Hlt|]. split.
  { intros k Hk. apply Hmax. by apply Hlt. }
  unfold simulate_game, simulate_game_rounds.
  rewrite E4, bind_Ok_l, Ew, bind_Ok_l. cbn [fst snd].
  change (player_id (seats 0)) with 1%Z in E5, Hp5.
  change (player_id (seats 3)) with 4%Z in E6, Hp6.
  change (player_id (seats 2)) with 3%Z in E7, Hp7, E8, Hp8.
  rewrite E5, bind_Ok_l. cbn [fst snd]. rewrite Ew5, bind_Ok_l. cbn [fst snd].
  rewrite E6, bind_Ok_l. cbn [fst snd].
  rewrite E7, bind_Ok_l. cbn [fst snd]. rewrite Ew7, bind_Ok_l. cbn [fst snd].
  rewrite E8, bind_Ok_l. cbn [fst snd]. rewrite Ew8, bind_Ok_l. cbn [fst snd].
  rewrite Hp5, Hp6, Hp7, Hp8, Hlen.
  rewrite (snapshot_show _ _ _ _ H4 Hw).
  rewrite (snapshot_show _ _ s5 0 H5) by (rewrite !elem_of_cons; auto).
  rewrite (snapshot_show _ _ s7 2 H7) by (rewrite !elem_of_cons; auto).
  destruct H8 as (_ & _ & _ & _ & Hid8 & Hsc8).
  rewrite (proj2 (Hid8 2)), (Hsc8 2) by (rewrite !elem_of_cons; auto).
  reflexivity.
Qed.

Lemma simulate_game_prints_witness :
  (∀ k, k < 4 → (100 ≤ scenario_deal k ≤ 500)%Z) ∧
  ∃ w, w < 4 ∧ (∀ k, k < 4 → (scenario_deal k ≤ scenario_deal w)%Z) ∧
       simulate_game scenario_deal = Returns (scripted_stdout scenario_deal w).
Proof.
  assert (H : ∀ k, k < 4 → (100 ≤ scenario_deal k ≤ 500)%Z).
  { intros k Hk. destruct k as [|[|[|[|k]]]]; simpl; lia. }
  split; [exact H|]. exact (simulate_game_prints scenario_deal H).
Defined.

(** That deal, run: Bob is dealt the most and leads first. *)
Example simulate_game_run :
  simulate_game scenario_deal = Returns (scripted_stdout scenario_deal 1).
Proof. vm_compute. reflexivity. Qed.
